(** * Balance assertion checking: [beancount.ops.balance]

  A shallow embedding of [check], the pass that replays a ledger, keeps a
  running inventory for the accounts that take part in a balance assertion,
  and evaluates every [Balance] directive against the inventory of its
  account's subtree.

  Python's [Decimal] is represented by its exact rational value ([Qc],
  rationals in lowest terms, so that numeric equality is Leibniz equality);
  the rounding of the decimal context (28 significant digits) is outside the
  model.  A raised [AssertionError] is the result [None]. *)

From Stdlib Require Import Ascii QArith Qcanon Qcabs.
From stdpp Require Import gmap strings list fin_maps numbers.

Set Warnings "-register-all".

Abbreviation Decimal := Qc.

(** [D('.015')] and friends: the decimal literal with the given value. *)
Definition D (q : Q) : Decimal := Q2Qc q.

Definition ZERO : Decimal := 0%Qc.

(** ** [beancount.core.amount] *)
Module amount.

(** Modelled from the spec: [beancount.core.amount] (the [Amount] type, its
    truth value and [amount_sub]) is not among the sources.  An amount is a
    signed decimal number tagged with a currency. *)
Record Amount := mk { number : Decimal; currency : string }.

#[global] Instance Amount_eq_dec : EqDecision Amount.
Proof. solve_decision. Defined.

#[global] Instance Amount_countable : Countable Amount :=
  inj_countable' (λ a, (number a, currency a)) (λ p, mk p.1 p.2)
                 (λ a, match a with mk _ _ => eq_refl end).

(** Modelled from the spec: the signed difference [amount1 - amount2],
    carried in the currency of the first operand. *)
Definition amount_sub (amount1 amount2 : Amount) : Amount :=
  mk (number amount1 - number amount2)%Qc (currency amount1).

(** Modelled from the spec: an amount is truthy exactly when its number is
    nonzero ("derived from whether the difference value is truthy
    (nonzero)"). *)
Definition truthy (a : Amount) : bool := bool_decide (number a ≠ ZERO).

End amount.

Abbreviation Amount := amount.Amount.

(** ** [beancount.core.inventory] *)
Module inventory.

(** Modelled from the spec: [beancount.core.inventory] is not among the
    sources.  A position is a signed number of units of a lot; a lot is a
    currency with an optional cost basis, which is only ever compared. *)
Record Lot := mkLot { lot_currency : string; lot_cost : option Amount }.

Record Position := mkPosition { lot : Lot; units : Decimal }.

#[global] Instance Lot_eq_dec : EqDecision Lot.
Proof. solve_decision. Defined.

#[global] Instance Lot_countable : Countable Lot :=
  inj_countable' (λ l, (lot_currency l, lot_cost l)) (λ p, mkLot p.1 p.2)
                 (λ l, match l with mkLot _ _ => eq_refl end).

#[global] Instance Position_eq_dec : EqDecision Position.
Proof. solve_decision. Defined.

(** Modelled from the spec: an inventory is "a mapping from currency (and
    cost key) to accumulated signed amount". *)
Abbreviation Inventory := (gmap Lot Decimal).

(** [inventory.Inventory()] *)
Definition Inventory_new : Inventory := ∅.

(** Modelled from the spec: [inv.add_position(position, True)] combines the
    position "into the existing amount for that currency/cost key, always
    permitted to go negative". *)
Definition add_position (inv : Inventory) (position : Position) : Inventory :=
  <[lot position := (default ZERO (inv !! lot position) + units position)%Qc]> inv.

(** Modelled from the spec: [inv.get_amount(currency)] is "the accumulated
    amount for one currency (zero if absent)", over all the cost keys of
    that currency. *)
Definition get_units (inv : Inventory) (currency : string) : Decimal :=
  map_fold (λ l n acc, if decide (lot_currency l = currency)
                       then (n + acc)%Qc else acc) ZERO inv.

Definition get_amount (inv : Inventory) (currency : string) : Amount :=
  amount.mk (get_units inv currency) currency.

(** Modelled from the spec: [self += other] merges [other] into [self],
    position by position. *)
Definition iadd (self other : Inventory) : Inventory :=
  map_fold (λ l n acc, add_position acc (mkPosition l n)) self other.

End inventory.

Abbreviation Inventory := inventory.Inventory.
Abbreviation Lot := inventory.Lot.
Abbreviation Position := inventory.Position.

(** ** [beancount.core.account] *)
Module account.

Definition sep : ascii := ":"%char.

(** Modelled from the spec: account paths have their "components separated
    by a fixed delimiter"; [split] is Python's [name.split(':')] (a string
    without delimiter is its own single component). *)
Fixpoint split (name : string) : list string :=
  match name with
  | EmptyString => [EmptyString]
  | String c rest =>
      if decide (c = sep) then EmptyString :: split rest
      else match split rest with
           | x :: xs => String c x :: xs
           | [] => [String c EmptyString]
           end
  end.

(** [sep.join(components)] *)
Fixpoint join (components : list string) : string :=
  match components with
  | [] => EmptyString
  | x :: [] => x
  | x :: xs => x +:+ String sep (join xs)
  end.

(** Python's [name.startswith(start)]. *)
Definition startswith (name start : string) : bool := String.prefix start name.

(** The spec's ancestry: "a path P is an ancestor of Q iff Q starts with P
    followed by the delimiter". *)
Definition is_ancestor (P Q : string) : bool :=
  startswith Q (P +:+ String sep EmptyString).

End account.

(** ** [beancount.core.realization] *)
Module realization.

(** Modelled from the spec: [beancount.core.realization] is not among the
    sources.  A hierarchy node "owns an Inventory (its own balance,
    excluding children) and a mapping from immediate child path-component
    to child node"; the root has the empty path. *)
Inductive RealAccount := mk {
  fullname : string;
  balance : Inventory;
  children : gmap string RealAccount
}.

(** [realization.RealAccount(name)] *)
Definition RealAccount_new (name : string) : RealAccount :=
  mk name inventory.Inventory_new ∅.

Definition child_name (parent : string) (component : string) : string :=
  if decide (parent = EmptyString) then component
  else parent +:+ String account.sep component.

(** Modelled from the spec: "fetch a node by path". *)
Fixpoint get_path (real_account : RealAccount) (path : list string)
  : option RealAccount :=
  match path with
  | [] => Some real_account
  | component :: rest =>
      match children real_account !! component with
      | Some child => get_path child rest
      | None => None
      end
  end.

Definition get (real_account : RealAccount) (account_name : string)
  : option RealAccount :=
  get_path real_account (account.split account_name).

(** Modelled from the spec: "create-or-fetch a node by path [...] creating
    a node implicitly creates and links all missing ancestors".  The
    Python function mutates the tree below [real_account]; the model
    returns the tree after the call. *)
Fixpoint get_or_create_path (real_account : RealAccount) (path : list string)
  : RealAccount :=
  match path with
  | [] => real_account
  | component :: rest =>
      let child :=
        default (RealAccount_new (child_name (fullname real_account) component))
                (children real_account !! component) in
      mk (fullname real_account) (balance real_account)
         (<[component := get_or_create_path child rest]> (children real_account))
  end.

Definition get_or_create (real_account : RealAccount) (account_name : string)
  : RealAccount :=
  get_or_create_path real_account (account.split account_name).

(** The tree after the inventory of the node at [path] has been mutated in
    place by [f] (the node is shared with the tree it was fetched from);
    nothing changes when there is no such node. *)
Fixpoint update_balance_path (real_account : RealAccount) (path : list string)
    (f : Inventory → Inventory) : RealAccount :=
  match path with
  | [] => mk (fullname real_account) (f (balance real_account))
             (children real_account)
  | component :: rest =>
      match children real_account !! component with
      | Some child =>
          mk (fullname real_account) (balance real_account)
             (<[component := update_balance_path child rest f]>
                (children real_account))
      | None => real_account
      end
  end.

Definition update_balance (real_account : RealAccount) (account_name : string)
    (f : Inventory → Inventory) : RealAccount :=
  update_balance_path real_account (account.split account_name) f.

(** Modelled from the spec: "iterate a node's descendants";
    [iter_children(real_account, False)] yields the node itself, then the
    nodes below it. *)
Fixpoint iter_children (real_account : RealAccount) : list RealAccount :=
  real_account ::
    map_fold (λ _ child acc, iter_children child ++ acc) []
             (children real_account).

End realization.

Abbreviation RealAccount := realization.RealAccount.

(** ** [beancount.core.data] *)
Module data.

(** Modelled from the spec: [beancount.core.data] is not among the
    sources.  The location is "an opaque token attached to entries". *)
Record FileLocation := mkFileLocation { filename : string; lineno : nat }.

Abbreviation Date := Z.

Record Posting := mkPosting { account : string; position : Position }.

(** A transaction carries "an ordered sequence of postings"; a balance
    assertion carries an account, the expected amount and "an optional diff
    field".  [Directive] stands for every other kind of entry, which
    [check] copies to its output; [accounts] are the accounts it names. *)
Inductive Entry :=
| Transaction (fileloc : FileLocation) (date : Date) (postings : list Posting)
| Balance (fileloc : FileLocation) (date : Date) (account : string)
          (amount : Amount) (diff_amount : option Amount)
| Directive (fileloc : FileLocation) (date : Date) (accounts : list string).

#[global] Instance FileLocation_eq_dec : EqDecision FileLocation.
Proof. solve_decision. Defined.

#[global] Instance Posting_eq_dec : EqDecision Posting.
Proof. solve_decision. Defined.

#[global] Instance Entry_eq_dec : EqDecision Entry.
Proof. solve_decision. Defined.

End data.

Abbreviation Entry := data.Entry.
Abbreviation Posting := data.Posting.
Abbreviation Transaction := data.Transaction.
Abbreviation Balance := data.Balance.
Abbreviation Directive := data.Directive.

(** ** [beancount.core.getters] *)
Module getters.

(** The accounts one entry names. *)
Definition entry_accounts (entry : Entry) : list string :=
  match entry with
  | Transaction _ _ postings => data.account <$> postings
  | Balance _ _ account _ _ => [account]
  | Directive _ _ accounts => accounts
  end.

(** Modelled from the spec: [getters.get_accounts(entries)] is the set of
    "every account path appearing anywhere in the ledger (via any posting
    or assertion)". *)
Definition get_accounts (entries : list Entry) : gset string :=
  list_to_set (entries ≫= entry_accounts).

End getters.

(** ** [beancount.ops.balance] *)

(** The message of an error is the format string of the source together with
    the arguments given to [format], in their order; rendering amounts as
    text is not modelled. *)
Inductive FormatArg :=
| ArgStr (s : string)
| ArgAmount (a : Amount).

Record Message := mkMessage { template : string; args : list FormatArg }.

(** [BalanceError = namedtuple('BalanceError', 'fileloc message entry')] *)
Record BalanceError := mkBalanceError {
  fileloc : data.FileLocation;
  message : Message;
  entry : Entry
}.

#[global] Instance FormatArg_eq_dec : EqDecision FormatArg.
Proof. solve_decision. Defined.

#[global] Instance Message_eq_dec : EqDecision Message.
Proof. solve_decision. Defined.

#[global] Instance BalanceError_eq_dec : EqDecision BalanceError.
Proof. solve_decision. Defined.

(** The options map parsed from the input file. *)
Abbreviation OptionsMap := (gmap string string).

(** [CHECK_PRECISION = D('.015')] *)
Definition CHECK_PRECISION : Decimal := D (15 # 1000).

(** [{entry.account for entry in entries if isinstance(entry, Balance)}] *)
Definition asserted_accounts (entries : list Entry) : gset string :=
  list_to_set (omap (λ e, match e with
                          | Balance _ _ account _ _ => Some account
                          | _ => None
                          end) entries).

(** The condition of the pre-creation loop:
    [account in asserted_accounts or
     any(account.startswith(asserted_account)
         for asserted_account in asserted_accounts)]. *)
Definition needs_balance (asserted : gset string) (account : string) : bool :=
  bool_decide (account ∈ asserted)
  || existsb (λ asserted_account, account.startswith account asserted_account)
             (elements asserted).

(** The pre-creation loop over a sequence of accounts. *)
Definition precreate (asserted : gset string) (real_root : RealAccount)
    (accounts : list string) : RealAccount :=
  foldl (λ root account,
           if needs_balance asserted account
           then realization.get_or_create root account
           else root)
        real_root accounts.

(** The tree [check] replays the entries on: the root [RealAccount('')]
    after the pre-creation loop over [getters.get_accounts(entries)].  Python
    iterates that set in an unspecified order; the order taken here is that
    of [elements]. *)
Definition selection (entries : list Entry) : RealAccount :=
  precreate (asserted_accounts entries) (realization.RealAccount_new "")
            (elements (getters.get_accounts entries)).

(** One iteration of [for posting in entry.postings]. *)
Definition post (real_root : RealAccount) (posting : Posting) : RealAccount :=
  match realization.get real_root (data.account posting) with
  | Some _ =>
      realization.update_balance real_root (data.account posting)
        (λ balance, inventory.add_position balance (data.position posting))
  | None => real_root
  end.

(** [subtree_balance = inventory.Inventory()
     for real_child in realization.iter_children(real_account, False):
         subtree_balance += real_child.balance] *)
Definition subtree_balance (real_account : RealAccount) : Inventory :=
  foldl (λ acc real_child, inventory.iadd acc (realization.balance real_child))
        inventory.Inventory_new (realization.iter_children real_account).

Definition direction (diff_amount : Amount) : string :=
  if amount.truthy diff_amount then "too much" else "too little".

Definition balance_message (account : string)
    (balance_amount expected_amount diff_amount : Amount) : Message :=
  mkMessage "Balance failed for '{}': expected {} != accumulated {} ({} {})"
            [ArgStr account; ArgAmount balance_amount; ArgAmount expected_amount;
             ArgAmount diff_amount; ArgStr (direction diff_amount)].

(** The variables of the main loop. *)
Record LoopState := mkLoopState {
  real_root : RealAccount;
  new_entries : list Entry;
  check_errors : list BalanceError
}.

(** The body of [for entry in entries]; [None] is the [AssertionError] of
    [assert real_account is not None]. *)
Definition check_entry (st : LoopState) (e : Entry) : option LoopState :=
  match e with
  | Transaction _ _ postings =>
      Some (mkLoopState (foldl post (real_root st) postings)
                        (new_entries st ++ [e]) (check_errors st))
  | Balance fileloc date account expected_amount _ =>
      match realization.get (real_root st) account with
      | None => None
      | Some real_account =>
          let balance_amount :=
            inventory.get_amount (subtree_balance real_account)
                                 (amount.currency expected_amount) in
          let diff_amount := amount.amount_sub balance_amount expected_amount in
          if bool_decide (CHECK_PRECISION < Qcabs (amount.number diff_amount))%Qc
          then Some (mkLoopState
                       (real_root st)
                       (new_entries st ++
                          [Balance fileloc date account expected_amount
                                   (Some diff_amount)])
                       (check_errors st ++
                          [mkBalanceError fileloc
                             (balance_message account balance_amount
                                              expected_amount diff_amount)
                             e]))
          else Some (mkLoopState (real_root st) (new_entries st ++ [e])
                                 (check_errors st))
      end
  | Directive _ _ _ =>
      Some (mkLoopState (real_root st) (new_entries st ++ [e]) (check_errors st))
  end.

(** [for entry in entries: ...] *)
Fixpoint replay (entries : list Entry) (st : LoopState) : option LoopState :=
  match entries with
  | [] => Some st
  | e :: rest =>
      match check_entry st e with
      | Some st' => replay rest st'
      | None => None
      end
  end.

(** [check(entries, unused_options_map)] *)
Definition check (entries : list Entry) (unused_options_map : OptionsMap)
  : option (list Entry * list BalanceError) :=
  match replay entries (mkLoopState (selection entries) [] []) with
  | Some st => Some (new_entries st, check_errors st)
  | None => None
  end.

(** ** Vocabulary of the statements *)

(** The state the loop starts from. *)
Definition initial_state (entries : list Entry) : LoopState :=
  mkLoopState (selection entries) [] [].

(** The local variables of the [Balance] branch, as functions of the node
    fetched for the entry's account and of the expected amount. *)
Definition balance_amount (real_account : RealAccount) (expected_amount : Amount)
  : Amount :=
  inventory.get_amount (subtree_balance real_account)
                       (amount.currency expected_amount).

Definition diff_amount (real_account : RealAccount) (expected_amount : Amount)
  : Amount :=
  amount.amount_sub (balance_amount real_account expected_amount) expected_amount.

(** The error record built for a failing assertion. *)
Definition balance_error (real_account : RealAccount) (e : Entry) : BalanceError :=
  match e with
  | Balance fileloc date account expected_amount _ =>
      mkBalanceError fileloc
        (balance_message account (balance_amount real_account expected_amount)
                         expected_amount (diff_amount real_account expected_amount))
        e
  | Transaction fileloc _ _ | Directive fileloc _ _ =>
      mkBalanceError fileloc (mkMessage EmptyString []) e
  end.

(** The direction named in the message of an error: the last argument given
    to [format]. *)
Definition message_direction (err : BalanceError) : option FormatArg :=
  list.last (args (message err)).

(** The diff field of an entry ([None] when the entry has no such field or
    the field is absent). *)
Definition data_diff_amount (e : Entry) : option Amount :=
  match e with
  | Balance _ _ _ _ diff => diff
  | _ => None
  end.

(** The contribution of one position to the units held in currency [c]. *)
Definition units_in (c : string) (l : Lot) (n : Decimal) : Decimal :=
  if decide (inventory.lot_currency l = c) then n else ZERO.

(** The sum of a sequence of decimals. *)
Definition sum_units (l : list Decimal) : Decimal := foldr Qcplus ZERO l.

(** The subtree balance in the words of the spec: "the sum of its own
    Inventory and the subtree balances of all its tracked descendants", read
    in currency [c]. *)
Fixpoint subtree_units (c : string) (real_account : RealAccount) : Decimal :=
  (inventory.get_units (realization.balance real_account) c
   + map_fold (λ _ child acc, subtree_units c child + acc) ZERO
              (realization.children real_account))%Qc.

(** The number of nodes of a tree. *)
Fixpoint node_count (real_account : RealAccount) : nat :=
  S (map_fold (λ _ child acc, node_count child + acc)%nat 0%nat
              (realization.children real_account)).

(** The positions of an inventory that are held in currency [c]. *)
Definition only_currency (c : string) (inv : Inventory) : Inventory :=
  filter (λ kv, inventory.lot_currency kv.1 = c) inv.

(** A tree in which every position in a currency other than [c] is erased
    from every inventory. *)
Fixpoint erase_other_currencies (c : string) (real_account : RealAccount)
  : RealAccount :=
  realization.mk (realization.fullname real_account)
                 (only_currency c (realization.balance real_account))
                 (erase_other_currencies c <$> realization.children real_account).

(** No inventory of the tree holds a position. *)
Definition untouched (t : RealAccount) : Prop :=
  ∀ q node, realization.get_path t q = Some node → realization.balance node = ∅.

(** A hierarchy node exists at the account path [A]. *)
Definition node_exists (real_root : RealAccount) (A : string) : Prop :=
  is_Some (realization.get real_root A).

#[global] Instance node_exists_dec real_root A : Decision (node_exists real_root A).
Proof. unfold node_exists. apply _. Defined.

(** [A] is the account [L] itself or one of its ancestors. *)
Definition leads_to (A L : string) : Prop :=
  A = L ∨ account.is_ancestor A L = true.

#[global] Instance leads_to_dec A L : Decision (leads_to A L).
Proof. unfold leads_to. apply _. Defined.

(** [A] is directly named in some assertion entry. *)
Definition asserted (entries : list Entry) (A : string) : Prop :=
  A ∈ asserted_accounts entries.

(** [A] appears in the ledger, in a posting, an assertion or another entry. *)
Definition in_ledger (entries : list Entry) (A : string) : Prop :=
  A ∈ getters.get_accounts entries.

(** The tracked paths in the words of the spec: [A] is directly named in
    some assertion entry, [A] is an ancestor of such an account, or [A]
    appears in the ledger and is a descendant of such an account. *)
Definition tracked (entries : list Entry) (A : string) : Prop :=
  A ∈ asserted_accounts entries
  ∨ set_Exists (λ s, account.is_ancestor A s = true) (asserted_accounts entries)
  ∨ (A ∈ getters.get_accounts entries
     ∧ set_Exists (λ s, account.is_ancestor s A = true) (asserted_accounts entries)).

#[global] Instance tracked_dec entries A : Decision (tracked entries A).
Proof. unfold tracked. apply _. Defined.

(** [Y] is an asserted account or a descendant of one: the node of [Y], if
    there is one, lies in the subtree summed for some assertion. *)
Definition below_asserted (S : gset string) (Y : string) : Prop :=
  ∃ s, s ∈ S ∧ leads_to s Y.

(** Two trees give the same subtree amounts, in every currency, at every
    path at or below an asserted account. *)
Definition same_amounts (S : gset string) (t t' : RealAccount) : Prop :=
  ∀ Y c, below_asserted S Y →
         subtree_units c <$> realization.get t Y
         = subtree_units c <$> realization.get t' Y.

(** The units of [currency] in the own inventory of the node at [account],
    if there is such a node. *)
Definition own_units (real_root : RealAccount) (account currency : string)
  : option Decimal :=
  match realization.get real_root account with
  | Some node => Some (inventory.get_units (realization.balance node) currency)
  | None => None
  end.

(** The entry [e] without its postings to the account [X]. *)
Definition without_postings_to (X : string) (e : Entry) : Entry :=
  match e with
  | Transaction fileloc date postings =>
      Transaction fileloc date
                  (filter (λ posting, data.account posting ≠ X) postings)
  | _ => e
  end.

(** [o] is a copy of the assertion [e] in which only the diff field is set. *)
Definition failed_copy (e o : Entry) : Prop :=
  ∃ fileloc date account expected_amount old_diff new_diff,
    e = Balance fileloc date account expected_amount old_diff
    ∧ o = Balance fileloc date account expected_amount (Some new_diff).

(** How the entries given to a pass, the entries it returns and the errors it
    returns line up: entry by entry, the output is the input entry, or a
    failed copy of it together with the next error, which refers to it. *)
Inductive lined_up : list Entry → list Entry → list BalanceError → Prop :=
| lined_up_nil : lined_up [] [] []
| lined_up_same e es os errs :
    lined_up es os errs → lined_up (e :: es) (e :: os) errs
| lined_up_failed e o err es os errs :
    failed_copy e o → entry err = e →
    lined_up es os errs → lined_up (e :: es) (o :: os) (err :: errs).

(** ** Example ledgers *)

Definition USD (q : Q) : Amount := amount.mk (D q) "USD".

Definition CUR (q : Q) : Amount := amount.mk (D q) "CUR".

(** A position of so many units, held without cost basis. *)
Definition units_of (a : Amount) : Position :=
  inventory.mkPosition (inventory.mkLot (amount.currency a) None) (amount.number a).

Definition loc (n : nat) : data.FileLocation :=
  data.mkFileLocation "ledger.beancount" n.

(** The scenario of the spec: 100 USD posted to [Assets:Cash], an assertion
    for 100 USD and an assertion for 90 USD. *)
Definition scenario : list Entry :=
  [ Transaction (loc 1) 1 [data.mkPosting "Assets:Cash" (units_of (USD 100))];
    Balance (loc 2) 2 "Assets:Cash" (USD 100) None;
    Balance (loc 3) 3 "Assets:Cash" (USD 90) None ].

(** A ledger whose assertion passes: the first two entries of [scenario]. *)
Definition passing_entries : list Entry := take 2 scenario.

(** The loop state with 100 USD accumulated on [Assets:Cash], and the node of
    that account. *)
Definition cash_state : LoopState :=
  mkLoopState
    (post (realization.get_or_create (realization.RealAccount_new "") "Assets:Cash")
          (data.mkPosting "Assets:Cash" (units_of (USD 100))))
    [] [].

Definition cash_node : RealAccount :=
  default (realization.RealAccount_new "")
          (realization.get (real_root cash_state) "Assets:Cash").


(** The subtree example of the spec: postings of +10 CUR to
    [Assets:Bank:Checking] and +5 CUR to [Assets:Bank:Savings], and a few
    shares in another currency. *)
Definition bank_postings : list Posting :=
  [ data.mkPosting "Assets:Bank:Checking" (units_of (CUR 10));
    data.mkPosting "Assets:Bank:Savings" (units_of (CUR 5));
    data.mkPosting "Assets:Bank:Savings" (units_of (amount.mk (D 7) "SHARE")) ].

Definition bank_entries : list Entry :=
  [ Transaction (loc 1) 1 bank_postings;
    Balance (loc 2) 2 "Assets:Bank" (CUR 15) None;
    Balance (loc 3) 2 "Assets:Bank:Checking" (CUR 15) None ].

(** The loop state when the first assertion of [bank_entries] is reached,
    and the node of [Assets:Bank] in it. *)
Definition bank_state : LoopState :=
  mkLoopState (foldl post (selection bank_entries) bank_postings)
              [Transaction (loc 1) 1 bank_postings] [].

Definition bank_node : RealAccount :=
  default (realization.RealAccount_new "")
          (realization.get (real_root bank_state) "Assets:Bank").


(** A ledger with an account whose name merely begins with the name of the
    asserted account. *)
Definition lookalike_entries : list Entry :=
  [ Transaction (loc 1) 1
      [data.mkPosting "Assets:BankOfAmerica" (units_of (USD 5))];
    Balance (loc 2) 2 "Assets:Bank" (USD 0) None ].

(** ** A direct computation of the result *)

(** The units of currency [c] that a posting brings to the account [s] or to
    an account below it. *)
Definition posting_units (s c : string) (posting : Posting) : Decimal :=
  if bool_decide (leads_to s (data.account posting))
  then units_in c (inventory.lot (data.position posting))
                (inventory.units (data.position posting))
  else ZERO.

Definition entry_units (s c : string) (e : Entry) : Decimal :=
  match e with
  | Transaction _ _ postings => sum_units (posting_units s c <$> postings)
  | _ => ZERO
  end.

(** The units of currency [c] posted by the transactions of [es] to the
    account [s] and to the accounts below it. *)
Definition posted_units (es : list Entry) (s c : string) : Decimal :=
  sum_units (entry_units s c <$> es).

(** What becomes of the entry [e] when it follows the entries [pre]: the
    entry for the output, and the error if [e] is an assertion that the
    total posted so far does not meet. *)
Definition expected_outcome (pre : list Entry) (e : Entry)
  : Entry * list BalanceError :=
  match e with
  | Balance fileloc date account expected_amount _ =>
      let accumulated :=
        amount.mk (posted_units pre account (amount.currency expected_amount))
                  (amount.currency expected_amount) in
      let diff := amount.amount_sub accumulated expected_amount in
      if bool_decide (CHECK_PRECISION < Qcabs (amount.number diff))%Qc
      then (Balance fileloc date account expected_amount (Some diff),
            [mkBalanceError fileloc
               (balance_message account accumulated expected_amount diff) e])
      else (e, [])
  | _ => (e, [])
  end.

(** The entries and the errors for [es] when it follows [pre]. *)
Fixpoint reference_from (pre es : list Entry) : list Entry * list BalanceError :=
  match es with
  | [] => ([], [])
  | e :: rest =>
      let head := expected_outcome pre e in
      let tail := reference_from (pre ++ [e]) rest in
      (head.1 :: tail.1, head.2 ++ tail.2)
  end.

Definition reference (entries : list Entry) : list Entry * list BalanceError :=
  reference_from [] entries.

(** The difference reported by an error: the fourth argument of its
    message. *)
Definition error_diff (err : BalanceError) : option Amount :=
  match args (message err) !! 3%nat with
  | Some (ArgAmount diff) => Some diff
  | _ => None
  end.


(** An entry is a balance assertion. *)
Definition is_balance (e : Entry) : bool :=
  match e with
  | Balance _ _ _ _ _ => true
  | _ => false
  end.

(** The entry [e] with only its postings in currency [c]. *)
Definition only_postings_in (c : string) (e : Entry) : Entry :=
  match e with
  | Transaction fileloc date postings =>
      Transaction fileloc date
        (filter (λ posting,
                   inventory.lot_currency (inventory.lot (data.position posting)) = c)
                postings)
  | _ => e
  end.


(** * Properties *)

(** ** Inventories *)

Section inventory_facts.
Local Open Scope Qc_scope.
Implicit Types (inv : Inventory) (l : Lot) (n : Decimal) (c : string).

Lemma get_units_empty c : inventory.get_units ∅ c = ZERO.
Proof. unfold inventory.get_units. by rewrite map_fold_empty. Qed.

Lemma get_units_insert_fresh inv l n c :
  inv !! l = None →
  inventory.get_units (<[l:=n]> inv) c = units_in c l n + inventory.get_units inv c.
Proof.
  intros Hl. unfold inventory.get_units, units_in.
  rewrite map_fold_insert_L; [|intros; repeat case_decide; ring|done].
  case_decide; [done|]. unfold ZERO. ring.
Qed.

Lemma get_units_delete inv l n c :
  inv !! l = Some n →
  inventory.get_units inv c
  = units_in c l n + inventory.get_units (delete l inv) c.
Proof.
  intros Hl. rewrite <-(insert_delete_id inv l n) at 1 by done.
  apply get_units_insert_fresh, lookup_delete_eq.
Qed.

Lemma get_units_add_position inv (p : Position) c :
  inventory.get_units (inventory.add_position inv p) c
  = inventory.get_units inv c + units_in c (inventory.lot p) (inventory.units p).
Proof.
  unfold inventory.add_position. destruct p as [l n]; simpl.
  destruct (inv !! l) as [old|] eqn:Hl; simpl.
  - rewrite <-insert_delete_eq, get_units_insert_fresh by apply lookup_delete_eq.
    rewrite (get_units_delete inv l old c Hl).
    unfold units_in. case_decide; unfold ZERO; ring.
  - rewrite get_units_insert_fresh by done.
    unfold units_in. case_decide; unfold ZERO; ring.
Qed.

Lemma get_units_iadd (self other : Inventory) c :
  inventory.get_units (inventory.iadd self other) c
  = inventory.get_units self c + inventory.get_units other c.
Proof.
  unfold inventory.iadd.
  induction other as [|l n other Hl Hfirst IH] using map_first_key_ind.
  - rewrite map_fold_empty, get_units_empty. unfold ZERO. ring.
  - rewrite map_fold_insert_first_key by done.
    rewrite get_units_add_position, IH, get_units_insert_fresh by done.
    simpl. ring.
Qed.

End inventory_facts.

(** ** Trees of accounts *)

Section tree_facts.
Local Open Scope Qc_scope.
Implicit Types (t child : RealAccount) (c : string).

Lemma node_count_child t k child :
  realization.children t !! k = Some child → (node_count child < node_count t)%nat.
Proof.
  destruct t as [name bal kids]; simpl. intros Hk.
  rewrite <-(insert_delete_id kids k child) by done.
  rewrite map_fold_insert_L; [lia|intros; lia|apply lookup_delete_eq].
Qed.

(** Induction on trees: a property holds of every node as soon as it holds
    of a node whenever it holds of its children. *)
Lemma RealAccount_children_ind (P : RealAccount → Prop) :
  (∀ t, (∀ k child, realization.children t !! k = Some child → P child) → P t) →
  ∀ t, P t.
Proof.
  intros Hstep t.
  remember (node_count t) as n eqn:Hn. revert t Hn.
  induction n as [n IH] using lt_wf_ind. intros t ->.
  apply Hstep. intros k child Hk. eapply IH; [|done].
  by eapply node_count_child.
Qed.

Lemma sum_units_cons (x : Decimal) (l : list Decimal) :
  sum_units (x :: l) = x + sum_units l.
Proof. done. Qed.

Lemma sum_units_app (l1 l2 : list Decimal) :
  sum_units (l1 ++ l2) = sum_units l1 + sum_units l2.
Proof.
  induction l1 as [|x l1 IH].
  - rewrite app_nil_l. unfold sum_units at 2; simpl. unfold ZERO. ring.
  - rewrite <-app_comm_cons, !sum_units_cons, IH. ring.
Qed.

Lemma get_units_foldl_iadd (acc : Inventory) (nodes : list RealAccount) c :
  inventory.get_units
    (foldl (λ acc real_child, inventory.iadd acc (realization.balance real_child))
           acc nodes) c
  = inventory.get_units acc c
    + sum_units ((λ n, inventory.get_units (realization.balance n) c) <$> nodes).
Proof.
  revert acc. induction nodes as [|n nodes IH]; intros acc.
  - unfold sum_units, ZERO; simpl. ring.
  - rewrite fmap_cons, sum_units_cons. simpl. rewrite IH, get_units_iadd. ring.
Qed.

Lemma get_units_subtree_balance t c :
  inventory.get_units (subtree_balance t) c
  = sum_units ((λ n, inventory.get_units (realization.balance n) c)
                 <$> realization.iter_children t).
Proof.
  unfold subtree_balance. rewrite get_units_foldl_iadd.
  unfold inventory.Inventory_new. rewrite get_units_empty.
  unfold ZERO. ring.
Qed.

Lemma sum_units_iter_children t c :
  sum_units ((λ n, inventory.get_units (realization.balance n) c)
               <$> realization.iter_children t)
  = subtree_units c t.
Proof.
  induction t as [t IH] using RealAccount_children_ind.
  destruct t as [name bal kids]; simpl in *. f_equal.
  induction kids as [|k child kids Hk Hfirst IHkids] using map_first_key_ind.
  - by rewrite !map_fold_empty.
  - rewrite !map_fold_insert_first_key by done.
    rewrite fmap_app, sum_units_app. f_equal.
    + apply (IH k). by rewrite lookup_insert_eq.
    + apply IHkids. intros k' child' Hk'. apply (IH k').
      rewrite lookup_insert_ne; [done|]. intros ->. congruence.
Qed.

End tree_facts.

(** ** Account names *)

Section account_facts.
Implicit Types (s r : string) (l : list string).

Lemma append_String a s r : String a s +:+ r = String a (s +:+ r).
Proof. done. Qed.

Lemma append_Empty r : EmptyString +:+ r = r.
Proof. done. Qed.

Lemma append_assoc s1 s2 s3 : (s1 +:+ s2) +:+ s3 = s1 +:+ (s2 +:+ s3).
Proof.
  induction s1 as [|a s1 IH]; [done|]. by rewrite !append_String, IH.
Qed.

Lemma startswith_spec s start :
  account.startswith s start = true ↔ ∃ r, s = start +:+ r.
Proof.
  unfold account.startswith. revert s.
  induction start as [|a start IH]; intros s; simpl.
  - split; [by exists s|]. by destruct s.
  - destruct s as [|b s]; simpl.
    + split; [done|]. by intros [r ?].
    + destruct (Ascii.ascii_dec a b) as [->|Hab].
      * rewrite IH. split; intros [r Hr]; exists r;
          rewrite append_String in *; congruence.
      * split; [done|]. intros [r Hr]. rewrite append_String in Hr. congruence.
Qed.

Lemma split_nonempty s : account.split s ≠ [].
Proof.
  destruct s as [|a s]; simpl; [done|].
  case_decide; [done|]. by destruct (account.split s).
Qed.

Lemma split_app_sep s r :
  account.split (s +:+ String account.sep r) = account.split s ++ account.split r.
Proof.
  induction s as [|a s IH].
  - by rewrite append_Empty.
  - rewrite append_String. simpl. rewrite IH. case_decide; [done|].
    pose proof (split_nonempty s). by destruct (account.split s).
Qed.

Lemma join_cons2 x y l :
  account.join (x :: y :: l) = x +:+ String account.sep (account.join (y :: l)).
Proof. done. Qed.

Lemma join_split s : account.join (account.split s) = s.
Proof.
  induction s as [|a s IH]; simpl; [done|].
  pose proof (split_nonempty s).
  destruct (account.split s) as [|x xs] eqn:Hs; [done|].
  case_decide as Ha.
  - subst a. by rewrite join_cons2, IH.
  - destruct xs as [|y xs].
    + simpl in *. by rewrite IH.
    + rewrite join_cons2 in *. by rewrite append_String, IH.
Qed.

Lemma join_app l1 l2 :
  l1 ≠ [] → l2 ≠ [] →
  account.join (l1 ++ l2) = account.join l1 +:+ String account.sep (account.join l2).
Proof.
  intros Hl1 Hl2. induction l1 as [|x l1 IH]; [done|].
  destruct l1 as [|y l1].
  - by destruct l2.
  - rewrite <-!app_comm_cons, !join_cons2, app_comm_cons, IH by done.
    by rewrite !append_assoc, append_String.
Qed.

(** The components of [P] begin the components of [Q] exactly when [P] is [Q]
    or an ancestor of [Q]. *)
Lemma split_prefix_of P Q :
  account.split P `prefix_of` account.split Q ↔
  P = Q ∨ account.is_ancestor P Q = true.
Proof.
  unfold account.is_ancestor. rewrite startswith_spec. split.
  - intros [k Hk]. destruct k as [|x k].
    + left. rewrite app_nil_r in Hk.
      by rewrite <-(join_split P), <-(join_split Q), Hk.
    + right. exists (account.join (x :: k)).
      rewrite <-(join_split Q), Hk, join_app, join_split;
        [|apply split_nonempty|done].
      by rewrite append_assoc, append_String, append_Empty.
  - intros [->|[r ->]]; [done|].
    rewrite append_assoc, append_String, append_Empty, split_app_sep.
    by eexists.
Qed.

End account_facts.

(** ** Fetching and creating nodes *)

Section path_facts.
Implicit Types (t : RealAccount) (p q : list string).

Lemma get_path_new name q :
  is_Some (realization.get_path (realization.RealAccount_new name) q) ↔ q = [].
Proof.
  destruct q as [|c q]; simpl; [by split; [|eexists]|].
  rewrite lookup_empty. split; [by intros [??]|done].
Qed.

(** After create-or-fetch at [p], the nodes are those there were before and
    those on the way to [p]. *)
Lemma get_path_get_or_create t p q :
  is_Some (realization.get_path (realization.get_or_create_path t p) q) ↔
  is_Some (realization.get_path t q) ∨ q `prefix_of` p.
Proof.
  revert t q. induction p as [|c p IH]; intros t q.
  - simpl. split; [by left|]. intros [?|Hq]; [done|].
    apply prefix_nil_inv in Hq as ->. by eexists.
  - destruct q as [|c' q].
    + simpl. split; [|by eexists]. intros _. left. by eexists.
    + simpl. destruct (decide (c = c')) as [->|Hc].
      * rewrite lookup_insert_eq, IH.
        destruct (realization.children t !! c') as [child|] eqn:Hchild; simpl.
        -- split; (intros [?|Hq]; [by left|right]).
           ++ by apply prefix_cons.
           ++ by apply prefix_cons_inv_2 in Hq.
        -- rewrite get_path_new. split.
           ++ intros [->|Hq]; right; [apply prefix_cons, prefix_nil|].
              by apply prefix_cons.
           ++ intros [[? ?]|Hq]; [done|]. right.
              by apply prefix_cons_inv_2 in Hq.
      * rewrite lookup_insert_ne by done. split; [by left|].
        intros [?|Hq]; [done|]. by apply prefix_cons_inv_1 in Hq.
Qed.

(** Mutating an inventory neither adds nor removes a node. *)
Lemma get_path_update_balance t p f q :
  is_Some (realization.get_path (realization.update_balance_path t p f) q) ↔
  is_Some (realization.get_path t q).
Proof.
  revert t q. induction p as [|c p IH]; intros t q.
  - destruct q; simpl; [by split; eexists|done].
  - simpl. destruct (realization.children t !! c) as [child|] eqn:Hchild; [|done].
    destruct q as [|c' q]; simpl; [by split; eexists|].
    destruct (decide (c = c')) as [->|Hc].
    + by rewrite lookup_insert_eq, Hchild, IH.
    + by rewrite lookup_insert_ne.
Qed.

End path_facts.

(** ** Selection of the accounts to track *)

Section selection_facts.
Implicit Types (S : gset string) (t : RealAccount) (A L : string).

Lemma startswith_refl A : account.startswith A A = true.
Proof.
  apply startswith_spec. exists EmptyString.
  induction A as [|a A IH]; [done|]. by rewrite append_String, <-IH.
Qed.

Lemma needs_balance_spec S L :
  needs_balance S L = true ↔ ∃ s, s ∈ S ∧ account.startswith L s = true.
Proof.
  unfold needs_balance. rewrite orb_true_iff, bool_decide_eq_true, existsb_exists.
  split.
  - intros [HL|[s [Hs Hpre]]].
    + exists L. split; [done|apply startswith_refl].
    + exists s. split; [|done]. apply elem_of_elements, list_elem_of_In, Hs.
  - intros [s [Hs Hpre]]. right. exists s. split; [|done].
    by apply list_elem_of_In, elem_of_elements.
Qed.

Lemma node_exists_new A : ¬ node_exists (realization.RealAccount_new EmptyString) A.
Proof.
  unfold node_exists, realization.get. rewrite get_path_new. apply split_nonempty.
Qed.

Lemma node_exists_get_or_create t L A :
  node_exists (realization.get_or_create t L) A ↔ node_exists t A ∨ leads_to A L.
Proof.
  unfold node_exists, realization.get, realization.get_or_create, leads_to.
  by rewrite get_path_get_or_create, split_prefix_of.
Qed.

Lemma node_exists_precreate S t accounts A :
  node_exists (precreate S t accounts) A ↔
  node_exists t A ∨ ∃ L, L ∈ accounts ∧ needs_balance S L = true ∧ leads_to A L.
Proof.
  unfold precreate. revert t. induction accounts as [|L' accounts IH]; intros t.
  - simpl. split; [by left|]. intros [?|(L & HL & _)]; [done|].
    by apply elem_of_nil in HL.
  - simpl. rewrite IH. destruct (needs_balance S L') eqn:Hneeds.
    + rewrite node_exists_get_or_create. split.
      * intros [[?|?]|(L & HL & ? & ?)]; [by left| |].
        -- right. exists L'. split; [apply list_elem_of_here|done].
        -- right. exists L. split; [by apply list_elem_of_further|done].
      * intros [?|(L & HL & HnL & HAL)]; [by left; left|].
        apply elem_of_cons in HL as [->|HL]; [by left; right|].
        right. by exists L.
    + split.
      * intros [?|(L & HL & ? & ?)]; [by left|].
        right. exists L. split; [by apply list_elem_of_further|done].
      * intros [?|(L & HL & HnL & HAL)]; [by left|].
        apply elem_of_cons in HL as [->|HL]; [congruence|].
        right. by exists L.
Qed.

(** The nodes after Selection: the paths leading to a ledger account that
    satisfies the condition of the pre-creation loop. *)
Lemma node_exists_selection entries A :
  node_exists (selection entries) A ↔
  ∃ L, in_ledger entries L
       ∧ needs_balance (asserted_accounts entries) L = true ∧ leads_to A L.
Proof.
  unfold selection, in_ledger. rewrite node_exists_precreate. split.
  - intros [H|(L & HL & ?)]; [by apply node_exists_new in H|].
    exists L. split; [by apply elem_of_elements|done].
  - intros (L & HL & ?). right. exists L. split; [by apply elem_of_elements|done].
Qed.

Lemma asserted_spec entries A :
  asserted entries A ↔
  ∃ fileloc date amount diff, Balance fileloc date A amount diff ∈ entries.
Proof.
  unfold asserted, asserted_accounts.
  rewrite elem_of_list_to_set, list_elem_of_omap. split.
  - intros (e & He & Hacc). destruct e; simplify_eq. eauto.
  - intros (f & d & a & df & He). eexists. split; [exact He|done].
Qed.

Lemma in_ledger_spec entries A :
  in_ledger entries A ↔ ∃ e, e ∈ entries ∧ A ∈ getters.entry_accounts e.
Proof.
  unfold in_ledger, getters.get_accounts.
  rewrite elem_of_list_to_set, list_elem_of_bind.
  split; intros (e & ? & ?); by exists e.
Qed.

Lemma asserted_in_ledger entries A : asserted entries A → in_ledger entries A.
Proof.
  rewrite asserted_spec, in_ledger_spec. intros (f & d & a & df & He).
  eexists. split; [exact He|]. simpl. apply list_elem_of_here.
Qed.

Lemma leads_to_trans A L s : leads_to A L → leads_to L s → leads_to A s.
Proof.
  unfold leads_to. rewrite <-!split_prefix_of. intros ??. by etrans.
Qed.

Lemma is_ancestor_startswith s L :
  account.is_ancestor s L = true → account.startswith L s = true.
Proof.
  unfold account.is_ancestor. rewrite !startswith_spec.
  intros [r ->]. rewrite append_assoc. by eexists.
Qed.


End selection_facts.

(** ** The replay loop *)

Section replay_facts.
Implicit Types (st : LoopState) (e o : Entry) (es os : list Entry).
Implicit Types (errs : list BalanceError) (t : RealAccount).

Lemma node_exists_post t (posting : Posting) A :
  node_exists (post t posting) A ↔ node_exists t A.
Proof.
  unfold post. destruct (realization.get t (data.account posting)); [|done].
  apply get_path_update_balance.
Qed.

Lemma node_exists_postings t (postings : list Posting) A :
  node_exists (foldl post t postings) A ↔ node_exists t A.
Proof.
  revert t. induction postings as [|p postings IH]; intros t; [done|].
  simpl. by rewrite IH, node_exists_post.
Qed.

(** The equations of the loop body. *)
Lemma check_entry_Balance st fileloc date account expected_amount old_diff real_account :
  realization.get (real_root st) account = Some real_account →
  check_entry st (Balance fileloc date account expected_amount old_diff)
  = Some
      (if bool_decide (CHECK_PRECISION
                       < Qcabs (amount.number (diff_amount real_account expected_amount)))%Qc
       then mkLoopState
              (real_root st)
              (new_entries st ++
                 [Balance fileloc date account expected_amount
                          (Some (diff_amount real_account expected_amount))])
              (check_errors st ++
                 [balance_error real_account
                    (Balance fileloc date account expected_amount old_diff)])
       else mkLoopState
              (real_root st)
              (new_entries st ++
                 [Balance fileloc date account expected_amount old_diff])
              (check_errors st)).
Proof. intros Hget. simpl. rewrite Hget. by case_bool_decide. Qed.

Lemma check_entry_raises st e :
  check_entry st e = None ↔
  ∃ fileloc date account expected_amount old_diff,
    e = Balance fileloc date account expected_amount old_diff
    ∧ ¬ node_exists (real_root st) account.
Proof.
  unfold node_exists. split.
  - destruct e as [| f d a amt df |]; simpl; [done| |done].
    destruct (realization.get (real_root st) a) eqn:Hget.
    + by case_bool_decide.
    + intros _. exists f, d, a, amt, df. split; [done|].
      rewrite Hget. apply is_Some_None.
  - intros (f & d & a & amt & df & -> & Hnone). simpl.
    destruct (realization.get (real_root st) a); [|done].
    destruct Hnone. by eexists.
Qed.

Lemma check_entry_node_exists st st' e A :
  check_entry st e = Some st' →
  node_exists (real_root st') A ↔ node_exists (real_root st) A.
Proof.
  destruct e as [f d ps| f d a amt df |]; simpl.
  - intros [= <-]. simpl. apply node_exists_postings.
  - destruct (realization.get (real_root st) a); [|done].
    by case_bool_decide; intros [= <-].
  - by intros [= <-].
Qed.

Lemma replay_node_exists es st st' A :
  replay es st = Some st' →
  node_exists (real_root st') A ↔ node_exists (real_root st) A.
Proof.
  revert st. induction es as [|e es IH]; intros st; simpl.
  - by intros [= <-].
  - destruct (check_entry st e) as [st1|] eqn:Hstep; [|done].
    intros Hrest. rewrite (IH _ Hrest). by eapply check_entry_node_exists.
Qed.

Lemma replay_app es1 es2 st :
  replay (es1 ++ es2) st = replay es1 st ≫= replay es2.
Proof.
  revert st. induction es1 as [|e es1 IH]; intros st; simpl; [done|].
  by destruct (check_entry st e).
Qed.

(** What one iteration appends to the two output lists. *)
Lemma check_entry_appends st st' e :
  check_entry st e = Some st' →
  (new_entries st' = new_entries st ++ [e] ∧ check_errors st' = check_errors st)
  ∨ (∃ o err, failed_copy e o ∧ entry err = e
              ∧ new_entries st' = new_entries st ++ [o]
              ∧ check_errors st' = check_errors st ++ [err]).
Proof.
  destruct e as [f d ps| f d a amt df |]; simpl.
  - intros [= <-]. by left.
  - destruct (realization.get (real_root st) a) as [node|]; [|done].
    case_bool_decide; intros [= <-]; [right|by left].
    exists (Balance f d a amt (Some (diff_amount node amt))),
           (balance_error node (Balance f d a amt df)).
    split; [by repeat eexists|done].
  - intros [= <-]. by left.
Qed.

Lemma replay_lined_up es st st' :
  replay es st = Some st' →
  ∃ os errs, new_entries st' = new_entries st ++ os
             ∧ check_errors st' = check_errors st ++ errs
             ∧ lined_up es os errs.
Proof.
  revert st. induction es as [|e es IH]; intros st; simpl.
  - intros [= <-]. exists [], []. rewrite !app_nil_r. by repeat split; constructor.
  - destruct (check_entry st e) as [st1|] eqn:Hstep; [|done].
    intros (os & errs & Hos & Herrs & Hlined)%IH.
    apply check_entry_appends in Hstep
      as [[Hn He]|(o & err & Hcopy & Hentry & Hn & He)].
    + exists (e :: os), errs. rewrite Hos, Herrs, Hn, He, <-app_assoc.
      by repeat split; constructor.
    + exists (o :: os), (err :: errs).
      rewrite Hos, Herrs, Hn, He, <-!app_assoc.
      by repeat split; constructor.
Qed.

Lemma check_lined_up entries options out errs :
  check entries options = Some (out, errs) → lined_up entries out errs.
Proof.
  unfold check.
  destruct (replay entries _) as [st|] eqn:Hreplay; [|done].
  intros [= <- <-].
  by apply replay_lined_up in Hreplay as (os & errs & -> & -> & Hlined).
Qed.

Lemma lined_up_length es os errs : lined_up es os errs → length os = length es.
Proof. induction 1; simpl; congruence. Qed.

Lemma lined_up_Forall2 es os errs :
  lined_up es os errs → Forall2 (λ e o, o = e ∨ failed_copy e o) es os.
Proof. induction 1; constructor; auto. Qed.

Lemma lined_up_sublist es os errs :
  lined_up es os errs → entry <$> errs `sublist_of` es.
Proof.
  induction 1 as [|e es os errs _ IH|e o err es os errs _ <- _ IH]; csimpl.
  - constructor.
  - by apply sublist_cons.
  - by apply sublist_skip.
Qed.

Lemma lined_up_no_errors es os : lined_up es os [] → os = es.
Proof.
  remember [] as errs eqn:Herrs. induction 1; [done| |done].
  f_equal. auto.
Qed.

(** The loop cut at one entry. *)
Lemma replay_cut pre e post st0 st_end :
  replay (pre ++ e :: post) st0 = Some st_end →
  ∃ st st', replay pre st0 = Some st
            ∧ check_entry st e = Some st'
            ∧ replay post st' = Some st_end
            ∧ ∀ o, new_entries st' = new_entries st ++ [o] →
                   new_entries st0 = [] →
                   new_entries st_end !! length pre = Some o.
Proof.
  rewrite replay_app. destruct (replay pre st0) as [st|] eqn:Hpre; [|done].
  simpl. destruct (check_entry st e) as [st'|] eqn:Hstep; [|done].
  intros Hpost. exists st, st'. split_and!; [done..|].
  intros o Ho Hnil.
  apply replay_lined_up in Hpre as (os1 & errs1 & Hos1 & _ & Hlined1).
  apply replay_lined_up in Hpost as (os2 & errs2 & Hos2 & _ & _).
  rewrite Hos2, Ho, Hos1, Hnil. simpl.
  rewrite <-(lined_up_length _ _ _ Hlined1), <-app_assoc.
  by rewrite lookup_app_r, Nat.sub_diag by done.
Qed.

(** The errors of a run all satisfy what the errors of an iteration do. *)
Lemma replay_errors_Forall (P : BalanceError → Prop) es st st' :
  (∀ t fileloc date account expected_amount old_diff,
     (CHECK_PRECISION < Qcabs (amount.number (diff_amount t expected_amount)))%Qc →
     P (balance_error t (Balance fileloc date account expected_amount old_diff))) →
  replay es st = Some st' →
  Forall P (check_errors st) → Forall P (check_errors st').
Proof.
  intros HP. revert st. induction es as [|e es IH]; intros st; simpl.
  - by intros [= <-].
  - destruct (check_entry st e) as [st1|] eqn:Hstep; [|done].
    intros Hrest Hst. apply (IH _ Hrest). clear Hrest.
    destruct e as [f d ps| f d a amt df |]; simpl in Hstep.
    + by injection Hstep as <-.
    + destruct (realization.get (real_root st) a) as [node|]; [|done].
      case_bool_decide; injection Hstep as <-; simpl; [|done].
      apply Forall_app. split; [done|]. apply Forall_singleton.
      by apply (HP node f d a amt df).
    + by injection Hstep as <-.
Qed.

End replay_facts.

(** ** Currencies are accumulated apart *)

Section currency_facts.
Local Open Scope Qc_scope.
Implicit Types (inv : Inventory) (t : RealAccount) (c : string).

Lemma get_units_only_currency inv c :
  inventory.get_units (only_currency c inv) c = inventory.get_units inv c.
Proof.
  unfold only_currency. induction inv as [|l n inv Hl IH] using map_ind.
  - by rewrite map_filter_empty.
  - rewrite get_units_insert_fresh by done.
    destruct (decide (inventory.lot_currency l = c)) as [Hc|Hc].
    + rewrite map_filter_insert_True by done.
      rewrite get_units_insert_fresh by (by rewrite map_lookup_filter_None; left).
      by rewrite IH.
    + rewrite map_filter_insert_not by done.
      rewrite IH. unfold units_in. rewrite decide_False by done.
      unfold ZERO. ring.
Qed.

Lemma get_units_absent inv c :
  (∀ l, is_Some (inv !! l) → inventory.lot_currency l ≠ c) →
  inventory.get_units inv c = ZERO.
Proof.
  intros Habsent. rewrite <-get_units_only_currency.
  replace (only_currency c inv) with (∅ : Inventory); [apply get_units_empty|].
  symmetry. apply map_empty_filter. intros l n Hl Hc. simpl in Hc.
  by apply (Habsent l); [eexists|].
Qed.

Lemma subtree_units_erase t c :
  subtree_units c (erase_other_currencies c t) = subtree_units c t.
Proof.
  induction t as [t IH] using RealAccount_children_ind.
  destruct t as [name bal kids]; simpl in *.
  rewrite get_units_only_currency. f_equal.
  rewrite map_fold_fmap.
  induction kids as [|k child kids Hk Hfirst IHkids] using map_first_key_ind.
  - by rewrite !map_fold_empty.
  - rewrite !map_fold_insert_first_key by done. unfold compose at 1. f_equal.
    + apply (IH k). by rewrite lookup_insert_eq.
    + apply IHkids. intros k' child' Hk'. apply (IH k').
      rewrite lookup_insert_ne; [done|]. intros ->. congruence.
Qed.

Lemma sum_units_zero {A} (f : A → Decimal) (l : list A) :
  (∀ x, x ∈ l → f x = ZERO) → sum_units (f <$> l) = ZERO.
Proof.
  induction l as [|x l IH]; intros Hzero; [done|].
  rewrite fmap_cons, sum_units_cons, IH, Hzero.
  - unfold ZERO. ring.
  - apply list_elem_of_here.
  - intros y Hy. apply Hzero. by apply list_elem_of_further.
Qed.

Lemma balance_amount_units t (expected_amount : Amount) :
  balance_amount t expected_amount
  = amount.mk (subtree_units (amount.currency expected_amount) t)
              (amount.currency expected_amount).
Proof.
  unfold balance_amount, inventory.get_amount.
  by rewrite get_units_subtree_balance, sum_units_iter_children.
Qed.

End currency_facts.

(** ** Postings outside the asserted subtrees *)

Section elsewhere_facts.
Local Open Scope Qc_scope.
Implicit Types (t node : RealAccount) (p q r : list string) (c : string).
Implicit Types (S : gset string).

Lemma get_path_app t q r :
  realization.get_path t (q ++ r)
  = realization.get_path t q ≫= λ node, realization.get_path node r.
Proof.
  revert t. induction q as [|k q IH]; intros t; simpl; [done|].
  destruct (realization.children t !! k); [apply IH|done].
Qed.

(** A node that is not on the way to [p] is as it was. *)
Lemma get_path_update_elsewhere t p f q :
  ¬ q `prefix_of` p →
  realization.get_path (realization.update_balance_path t p f) q
  = realization.get_path t q.
Proof.
  revert t q. induction p as [|k p IH]; intros t q Hq.
  - destruct q as [|k' q]; [|done]. destruct Hq. apply prefix_nil.
  - simpl. destruct (realization.children t !! k) as [child|] eqn:Hchild; [|done].
    destruct q as [|k' q]; [destruct Hq; apply prefix_nil|]. simpl.
    destruct (decide (k = k')) as [->|Hk].
    + rewrite lookup_insert_eq, Hchild. apply IH.
      intros Hpre. apply Hq. by apply prefix_cons.
    + by rewrite lookup_insert_ne.
Qed.

(** A node on the way to the mutated node has the mutation below it. *)
Lemma get_path_update_below t q r f :
  realization.get_path (realization.update_balance_path t (q ++ r) f) q
  = (λ node, realization.update_balance_path node r f) <$> realization.get_path t q.
Proof.
  revert t. induction q as [|k q IH]; intros t; [done|]. simpl.
  destruct (realization.children t !! k) as [child|] eqn:Hchild; simpl.
  - by rewrite lookup_insert_eq, IH.
  - by rewrite Hchild.
Qed.

Lemma subtree_units_children_insert (kids : gmap string RealAccount) k child child' c :
  kids !! k = Some child →
  map_fold (λ _ n acc, subtree_units c n + acc) ZERO (<[k:=child']> kids)
  = subtree_units c child' - subtree_units c child
    + map_fold (λ _ n acc, subtree_units c n + acc) ZERO kids.
Proof.
  intros Hk.
  rewrite <-(insert_delete_id kids k child) at 2 by done.
  rewrite <-insert_delete_eq.
  rewrite !map_fold_insert_L;
    [ring|intros; ring|apply lookup_delete_eq|intros; ring|apply lookup_delete_eq].
Qed.

(** Mutating the inventory of a node below [t] moves the subtree amount of
    [t] by what it adds to the units of that inventory. *)
Lemma subtree_units_update t r f c delta :
  (∀ inv, inventory.get_units (f inv) c = inventory.get_units inv c + delta) →
  is_Some (realization.get_path t r) →
  subtree_units c (realization.update_balance_path t r f)
  = subtree_units c t + delta.
Proof.
  intros Hf. revert t. induction r as [|k r IH]; intros t Hnode.
  - destruct t as [name bal kids]. simpl. rewrite Hf. ring.
  - destruct t as [name bal kids]. simpl in *.
    destruct (kids !! k) as [child|] eqn:Hchild; [|by destruct Hnode].
    simpl. rewrite (subtree_units_children_insert kids k child) by done.
    rewrite IH by done. ring.
Qed.

Lemma post_without_node t (posting : Posting) :
  realization.get t (data.account posting) = None → post t posting = t.
Proof. intros Hnone. unfold post. by rewrite Hnone. Qed.

(** A posting leaves the node of every account that is neither the posted
    account nor one of its ancestors as it was. *)
Lemma post_elsewhere t (posting : Posting) Y :
  ¬ leads_to Y (data.account posting) →
  realization.get (post t posting) Y = realization.get t Y.
Proof.
  intros HY. unfold post.
  destruct (realization.get t (data.account posting)); [|done].
  apply get_path_update_elsewhere. by rewrite split_prefix_of.
Qed.

(** A posting to a node moves the subtree amount of the posted account and
    of each of its ancestors by the units posted. *)
Lemma post_below t (posting : Posting) Y c :
  leads_to Y (data.account posting) →
  node_exists t (data.account posting) →
  subtree_units c <$> realization.get (post t posting) Y
  = (λ node, subtree_units c node
             + units_in c (inventory.lot (data.position posting))
                        (inventory.units (data.position posting)))
      <$> realization.get t Y.
Proof.
  intros [r Hr]%split_prefix_of [posted Hposted]. unfold post.
  rewrite Hposted.
  unfold realization.get, realization.update_balance in *.
  rewrite Hr in *. rewrite get_path_update_below.
  rewrite get_path_app in Hposted.
  destruct (realization.get_path t (account.split Y)) as [node|]; [|done].
  simpl in *. f_equal. apply subtree_units_update; [|by eexists].
  intros inv. apply get_units_add_position.
Qed.

Lemma below_asserted_leads_to S Y P :
  below_asserted S Y → leads_to Y P → below_asserted S P.
Proof.
  intros (s & Hs & HsY) HYP. exists s. split; [done|].
  by apply (leads_to_trans s Y P).
Qed.

Lemma same_amounts_node_exists S t t' Y :
  same_amounts S t t' → below_asserted S Y → node_exists t Y ↔ node_exists t' Y.
Proof.
  intros Hsame HY. specialize (Hsame Y EmptyString HY). unfold node_exists.
  destruct (realization.get t Y), (realization.get t' Y); simplify_eq/=;
    split; intros [??]; by eauto.
Qed.

Lemma same_amounts_post S t t' (posting : Posting) :
  same_amounts S t t' → same_amounts S (post t posting) (post t' posting).
Proof.
  intros Hsame Y c HY.
  destruct (decide (leads_to Y (data.account posting))) as [Hlead|Hlead].
  - pose proof (below_asserted_leads_to _ _ _ HY Hlead) as HP.
    pose proof (same_amounts_node_exists _ _ _ _ Hsame HP) as Hnodes.
    destruct (realization.get t (data.account posting)) as [posted|] eqn:Hposted.
    + rewrite !post_below; [|done|apply Hnodes; by eexists|done|by eexists].
      specialize (Hsame Y c HY).
      destruct (realization.get t Y), (realization.get t' Y); simplify_eq/=;
        [by rewrite Hsame|done].
    + rewrite (post_without_node t) by done.
      destruct (realization.get t' (data.account posting)) eqn:Hposted'.
      * assert (node_exists t (data.account posting)) as [??]
          by (apply Hnodes; by eexists). congruence.
      * rewrite (post_without_node t') by done. by apply Hsame.
  - rewrite !post_elsewhere by done. by apply Hsame.
Qed.

Lemma same_amounts_post_left S t t' (posting : Posting) :
  ¬ below_asserted S (data.account posting) →
  same_amounts S t t' → same_amounts S (post t posting) t'.
Proof.
  intros HP Hsame Y c HY. rewrite post_elsewhere; [by apply Hsame|].
  intros Hlead. apply HP. by eapply below_asserted_leads_to.
Qed.

Lemma same_amounts_postings S X t t' (postings : list Posting) :
  ¬ below_asserted S X →
  same_amounts S t t' →
  same_amounts S (foldl post t postings)
               (foldl post t'
                      (filter (λ posting, data.account posting ≠ X) postings)).
Proof.
  intros HX. revert t t'.
  induction postings as [|posting postings IH]; intros t t' Hsame.
  - done.
  - simpl. destruct (decide (data.account posting = X)) as [Hp|Hp].
    + rewrite filter_cons_False by (by intros ?). apply IH.
      apply same_amounts_post_left; [by rewrite Hp|done].
    + rewrite filter_cons_True by done. simpl. apply IH.
      by apply same_amounts_post.
Qed.

Lemma untouched_new name : untouched (realization.RealAccount_new name).
Proof.
  intros q node. destruct q as [|k q]; simpl.
  - by intros [= <-].
  - by rewrite lookup_empty.
Qed.

Lemma untouched_child t k child :
  untouched t → realization.children t !! k = Some child → untouched child.
Proof.
  intros Ht Hk q node Hq. apply (Ht (k :: q)). simpl. by rewrite Hk.
Qed.

Lemma untouched_get_path t q node :
  untouched t → realization.get_path t q = Some node → untouched node.
Proof.
  intros Ht Hq r node' Hr. apply (Ht (q ++ r)).
  rewrite get_path_app, Hq. exact Hr.
Qed.

Lemma untouched_get_or_create t p :
  untouched t → untouched (realization.get_or_create_path t p).
Proof.
  revert t. induction p as [|k p IH]; intros t Ht; [done|].
  intros q node. destruct q as [|k' q]; simpl.
  - intros [= <-]. simpl. by apply (Ht []).
  - destruct (decide (k = k')) as [->|Hk].
    + rewrite lookup_insert_eq. apply IH.
      destruct (realization.children t !! k') as [child|] eqn:Hchild; simpl.
      * by eapply untouched_child.
      * apply untouched_new.
    + rewrite lookup_insert_ne by done. intros Hq. apply (Ht (k' :: q)). exact Hq.
Qed.

Lemma untouched_selection entries : untouched (selection entries).
Proof.
  unfold selection, precreate.
  generalize (elements (getters.get_accounts entries)).
  assert (untouched (realization.RealAccount_new EmptyString)) as Hnew
    by apply untouched_new.
  revert Hnew. generalize (realization.RealAccount_new EmptyString).
  intros t Ht accounts. revert t Ht.
  induction accounts as [|L accounts IH]; intros t Ht; [done|].
  simpl. apply IH. destruct (needs_balance _ L); [|done].
  by apply untouched_get_or_create.
Qed.

Lemma subtree_units_untouched t c : untouched t → subtree_units c t = ZERO.
Proof.
  induction t as [t IH] using RealAccount_children_ind. intros Ht.
  assert (∀ k child, realization.children t !! k = Some child →
                     subtree_units c child = ZERO) as Hkids.
  { intros k child Hk. apply (IH k child Hk). by eapply untouched_child. }
  pose proof (Ht [] t eq_refl) as Hbal. clear IH Ht.
  destruct t as [name bal kids]; simpl in *. subst bal.
  rewrite get_units_empty.
  induction kids as [|k child kids Hk Hfirst IHkids] using map_first_key_ind.
  - rewrite map_fold_empty. unfold ZERO. ring.
  - rewrite map_fold_insert_first_key by done.
    rewrite (Hkids k child) by apply lookup_insert_eq.
    unfold ZERO at 1. rewrite Qcplus_0_l. apply IHkids.
    intros k' child' Hk'. apply (Hkids k').
    rewrite lookup_insert_ne; [done|]. intros ->. congruence.
Qed.

Lemma asserted_accounts_without X entries :
  asserted_accounts (without_postings_to X <$> entries) = asserted_accounts entries.
Proof.
  unfold asserted_accounts. f_equal.
  induction entries as [|e entries IH]; [done|].
  csimpl. rewrite IH. by destruct e.
Qed.

Lemma entry_accounts_without_1 X e L :
  L ∈ getters.entry_accounts (without_postings_to X e) →
  L ∈ getters.entry_accounts e.
Proof.
  destruct e as [f d ps| |]; simpl; [|done..].
  rewrite !list_elem_of_fmap.
  intros (posting & -> & [_ Hin]%list_elem_of_filter). by exists posting.
Qed.

Lemma entry_accounts_without_2 X e L :
  L ≠ X → L ∈ getters.entry_accounts e →
  L ∈ getters.entry_accounts (without_postings_to X e).
Proof.
  intros HLX. destruct e as [f d ps| |]; simpl; [|done..].
  rewrite !list_elem_of_fmap.
  intros (posting & -> & Hin). exists posting. split; [done|].
  by apply list_elem_of_filter.
Qed.

Lemma in_ledger_without_1 X entries L :
  in_ledger (without_postings_to X <$> entries) L → in_ledger entries L.
Proof.
  rewrite !in_ledger_spec. intros (e' & (e & -> & He)%list_elem_of_fmap & HL).
  exists e. split; [done|]. by eapply entry_accounts_without_1.
Qed.

Lemma in_ledger_without_2 X entries L :
  L ≠ X → in_ledger entries L → in_ledger (without_postings_to X <$> entries) L.
Proof.
  rewrite !in_ledger_spec. intros HLX (e & He & HL).
  exists (without_postings_to X e). split.
  - apply list_elem_of_fmap. by exists e.
  - by apply entry_accounts_without_2.
Qed.

(** Selection gives the same, empty, subtrees at and below the asserted
    accounts whether or not the postings to [X] are in the ledger. *)
Lemma same_amounts_selection X entries :
  ¬ below_asserted (asserted_accounts entries) X →
  same_amounts (asserted_accounts entries) (selection entries)
               (selection (without_postings_to X <$> entries)).
Proof.
  intros HX Y c HY.
  assert (node_exists (selection entries) Y
          ↔ node_exists (selection (without_postings_to X <$> entries)) Y)
    as Hnodes.
  { rewrite !node_exists_selection, asserted_accounts_without.
    split; intros (L & HL & Hneeds & HYL); exists L; (split; [|done]).
    - apply in_ledger_without_2; [|done]. intros ->.
      apply HX. by eapply below_asserted_leads_to.
    - by eapply in_ledger_without_1. }
  unfold node_exists in Hnodes.
  destruct (realization.get (selection entries) Y) as [node|] eqn:Hnode,
           (realization.get (selection (without_postings_to X <$> entries)) Y)
             as [node'|] eqn:Hnode'; simpl.
  - rewrite !subtree_units_untouched; [done|..].
    + eapply untouched_get_path; [apply untouched_selection|exact Hnode'].
    + eapply untouched_get_path; [apply untouched_selection|exact Hnode].
  - destruct (proj1 Hnodes) as [??]; [by eexists|done].
  - destruct (proj2 Hnodes) as [??]; [by eexists|done].
  - done.
Qed.

(** The loop on a ledger and on the ledger without the postings to [X], from
    states that agree on the amounts at and below the asserted accounts. *)
Lemma replay_without X S es st st' :
  ¬ below_asserted S X →
  (∀ fileloc date account expected_amount old_diff,
     Balance fileloc date account expected_amount old_diff ∈ es → account ∈ S) →
  same_amounts S (real_root st) (real_root st') →
  new_entries st' = without_postings_to X <$> new_entries st →
  check_errors st' = check_errors st →
  (λ st1, (new_entries st1, check_errors st1))
    <$> replay (without_postings_to X <$> es) st'
  = (λ st1, (without_postings_to X <$> new_entries st1, check_errors st1))
      <$> replay es st.
Proof.
  intros HX. revert st st'.
  induction es as [|e es IH]; intros st st' HS Hsame Hnew Herrs.
  - simpl. by rewrite Hnew, Herrs.
  - assert (∀ f d a amt df, Balance f d a amt df ∈ es → a ∈ S) as HS'
      by (intros f d a amt df He; eapply HS; by apply list_elem_of_further).
    destruct e as [f d ps| f d a amt df | f d accounts].
    + simpl. apply IH; simpl; [done| |by rewrite Hnew, fmap_app|done].
      by apply same_amounts_postings.
    + assert (a ∈ S) as Ha by (eapply HS; apply list_elem_of_here).
      assert (below_asserted S a) as Hbelow by (exists a; split; [done|by left]).
      pose proof (Hsame a (amount.currency amt) Hbelow) as Hunits.
      rewrite fmap_cons.
      change (without_postings_to X (Balance f d a amt df))
        with (Balance f d a amt df).
      destruct (realization.get (real_root st) a) as [node|] eqn:Hnode,
               (realization.get (real_root st') a) as [node'|] eqn:Hnode';
        simpl in Hunits; [injection Hunits as Hunits|done|done|].
      * assert (balance_amount node' amt = balance_amount node amt) as Hbal
          by (rewrite !balance_amount_units; congruence).
        change (replay (Balance f d a amt df :: (without_postings_to X <$> es)) st')
          with (match check_entry st' (Balance f d a amt df) with
                | Some st1 => replay (without_postings_to X <$> es) st1
                | None => None
                end).
        change (replay (Balance f d a amt df :: es) st)
          with (match check_entry st (Balance f d a amt df) with
                | Some st1 => replay es st1
                | None => None
                end).
        rewrite (check_entry_Balance _ _ _ _ _ _ _ Hnode),
                (check_entry_Balance _ _ _ _ _ _ _ Hnode').
        unfold balance_error, diff_amount. rewrite Hbal.
        case_bool_decide; apply IH; simpl;
          try done; by rewrite ?Hnew, ?Herrs, ?fmap_app.
      * simpl. by rewrite Hnode, Hnode'.
    + simpl. apply IH; simpl; [done|done|by rewrite Hnew, fmap_app|done].
Qed.

(** Postings to an account that is neither asserted nor below an asserted
    account change nothing in what the pass returns: on the ledger without
    them it returns the same errors and, those postings apart, the same
    entries. *)
Lemma postings_elsewhere_ignored X entries options :
  (∀ s, asserted entries s → ¬ leads_to s X) →
  check (without_postings_to X <$> entries) options
  = (λ result : list Entry * list BalanceError,
       (without_postings_to X <$> result.1, result.2))
      <$> check entries options.
Proof.
  intros HX. unfold check.
  assert (¬ below_asserted (asserted_accounts entries) X) as Hnot
    by (intros (s & Hs & HsX); by apply (HX s)).
  assert (∀ f d a amt df, Balance f d a amt df ∈ entries →
                          a ∈ asserted_accounts entries) as Hasserted
    by (intros f d a amt df He; apply asserted_spec; eauto).
  pose proof (replay_without X (asserted_accounts entries) entries
                (mkLoopState (selection entries) [] [])
                (mkLoopState (selection (without_postings_to X <$> entries)) [] [])
                Hnot Hasserted (same_amounts_selection X entries Hnot)
                eq_refl eq_refl)
    as Hsim.
  destruct (replay (without_postings_to X <$> entries) _) as [st'|],
           (replay entries _) as [st|]; simpl in *; done.
Qed.

End elsewhere_facts.

(** * The pass as a function of the postings *)

Section reference_facts.
Local Open Scope Qc_scope.
Implicit Types (t : RealAccount) (st : LoopState) (e : Entry).
Implicit Types (pre es entries : list Entry) (s c : string).

Lemma posted_units_nil s c : posted_units [] s c = ZERO.
Proof. done. Qed.

Lemma posted_units_app es1 es2 s c :
  posted_units (es1 ++ es2) s c = posted_units es1 s c + posted_units es2 s c.
Proof. unfold posted_units. by rewrite fmap_app, sum_units_app. Qed.

Lemma posted_units_snoc pre e s c :
  posted_units (pre ++ [e]) s c = posted_units pre s c + entry_units s c e.
Proof.
  rewrite posted_units_app. f_equal. unfold posted_units.
  rewrite list_fmap_singleton. unfold sum_units. simpl. unfold ZERO. ring.
Qed.

(** A posting adds its units below [s] to the subtree amount of [s]. *)
Lemma post_total t (posting : Posting) s c x :
  (leads_to s (data.account posting) → node_exists t (data.account posting)) →
  subtree_units c <$> realization.get t s = Some x →
  subtree_units c <$> realization.get (post t posting) s
  = Some (x + posting_units s c posting).
Proof.
  intros Hnode Hx. unfold posting_units. case_bool_decide as Hlead.
  - rewrite post_below by auto.
    destruct (realization.get t s) as [node|]; [|done].
    simpl in *. by simplify_eq.
  - rewrite post_elsewhere, Hx by done. f_equal. unfold ZERO. ring.
Qed.

Lemma postings_total t (postings : list Posting) s c x :
  (∀ posting, posting ∈ postings → leads_to s (data.account posting) →
              node_exists t (data.account posting)) →
  subtree_units c <$> realization.get t s = Some x →
  subtree_units c <$> realization.get (foldl post t postings) s
  = Some (x + sum_units (posting_units s c <$> postings)).
Proof.
  revert t x. induction postings as [|posting postings IH]; intros t x Hnodes Hx.
  - simpl. rewrite Hx. f_equal. unfold sum_units, ZERO. simpl. ring.
  - rewrite fmap_cons, sum_units_cons. simpl.
    rewrite (IH (post t posting) (x + posting_units s c posting)).
    + f_equal. ring.
    + intros p Hp Hlead. apply node_exists_post.
      apply Hnodes; [by apply list_elem_of_further|done].
    + apply post_total; [|done].
      apply Hnodes, list_elem_of_here.
Qed.

Lemma leads_to_startswith s P : leads_to s P → account.startswith P s = true.
Proof.
  intros [->|Hanc]; [apply startswith_refl|by apply is_ancestor_startswith].
Qed.

(** Selection makes a node for every account of the ledger that is an
    asserted account or below one. *)
Lemma selection_nodes entries P s :
  in_ledger entries P → asserted entries s → leads_to s P →
  node_exists (selection entries) P.
Proof.
  intros HP Hs Hlead. apply node_exists_selection. exists P.
  split_and!; [done| |by left].
  apply needs_balance_spec. exists s. split; [done|].
  by apply leads_to_startswith.
Qed.

(** Before the replay the subtree amount of every asserted account is zero. *)
Lemma selection_totals entries s c :
  asserted entries s →
  subtree_units c <$> realization.get (selection entries) s = Some ZERO.
Proof.
  intros Hs.
  destruct (selection_nodes entries s s) as [node Hnode];
    [by apply asserted_in_ledger|done|by left|].
  rewrite Hnode. simpl. f_equal. apply subtree_units_untouched.
  eapply untouched_get_path; [apply untouched_selection|exact Hnode].
Qed.

Lemma reference_from_length pre es : length (reference_from pre es).1 = length es.
Proof.
  revert pre. induction es as [|e es IH]; intros pre; [done|].
  simpl. by rewrite IH.
Qed.

(** The loop from a state that holds, for every asserted account, the total
    posted by the entries before. *)
Lemma replay_reference entries es pre st :
  (∀ e, e ∈ es → e ∈ entries) →
  (∀ s c, asserted entries s →
          subtree_units c <$> realization.get (real_root st) s
          = Some (posted_units pre s c)) →
  (∀ P s, in_ledger entries P → asserted entries s → leads_to s P →
          node_exists (real_root st) P) →
  (λ st', (new_entries st', check_errors st')) <$> replay es st
  = Some (new_entries st ++ (reference_from pre es).1,
          check_errors st ++ (reference_from pre es).2).
Proof.
  revert pre st. induction es as [|e es IH]; intros pre st Hin Htotals Hnodes.
  - simpl. by rewrite !app_nil_r.
  - assert (e ∈ entries) as He by apply Hin, list_elem_of_here.
    assert (∀ e', e' ∈ es → e' ∈ entries) as Hin'
      by (intros e' ?; by apply Hin, list_elem_of_further).
    destruct e as [f d ps| f d a amt df | f d accounts].
    + simpl. rewrite (IH (pre ++ [Transaction f d ps])); simpl.
      * by rewrite <-!app_assoc.
      * done.
      * intros s c Hs. rewrite posted_units_snoc. simpl.
        apply postings_total; [|by apply Htotals].
        intros posting Hposting Hlead. apply (Hnodes _ s); [|done..].
        apply in_ledger_spec. exists (Transaction f d ps). split; [done|].
        simpl. apply list_elem_of_fmap. by exists posting.
      * intros P s HP Hs Hlead. apply node_exists_postings. by eapply Hnodes.
    + assert (asserted entries a) as Ha by (apply asserted_spec; eauto).
      pose proof (Htotals a (amount.currency amt) Ha) as Htotal.
      destruct (realization.get (real_root st) a) as [node|] eqn:Hnode; [|done].
      simpl in Htotal. injection Htotal as Htotal.
      change (replay (Balance f d a amt df :: es) st)
        with (match check_entry st (Balance f d a amt df) with
              | Some st1 => replay es st1
              | None => None
              end).
      rewrite (check_entry_Balance _ _ _ _ _ _ _ Hnode).
      unfold balance_error, diff_amount.
      rewrite balance_amount_units, Htotal.
      change (reference_from pre (Balance f d a amt df :: es))
        with (let head := expected_outcome pre (Balance f d a amt df) in
              let tail := reference_from (pre ++ [Balance f d a amt df]) es in
              (head.1 :: tail.1, head.2 ++ tail.2)).
      unfold expected_outcome.
      assert (∀ s c, posted_units (pre ++ [Balance f d a amt df]) s c
                     = posted_units pre s c) as Hsame.
      { intros s c. rewrite posted_units_snoc. simpl. unfold ZERO. ring. }
      case_bool_decide;
        (rewrite (IH (pre ++ [Balance f d a amt df])); simpl;
         [by rewrite <-!app_assoc|done
         |by intros s c Hs; rewrite Hsame; apply Htotals|done]).
    + simpl. rewrite (IH (pre ++ [Directive f d accounts])); simpl.
      * by rewrite <-!app_assoc.
      * done.
      * intros s c Hs. rewrite posted_units_snoc. simpl.
        rewrite Htotals by done. f_equal. unfold ZERO. ring.
      * done.
Qed.

(** [check] returns what the direct computation gives. *)
Lemma check_eq_reference entries options :
  check entries options = Some (reference entries).
Proof.
  unfold check, reference.
  pose proof (replay_reference entries entries []
                (mkLoopState (selection entries) [] [])
                (λ e He, He)
                (λ s c Hs, selection_totals entries s c Hs)
                (selection_nodes entries)) as Hrun.
  simpl in Hrun. rewrite <-surjective_pairing in Hrun.
  by destruct (replay entries _) as [st|].
Qed.

Lemma check_reference_inv entries options out errs :
  check entries options = Some (out, errs) →
  out = (reference entries).1 ∧ errs = (reference entries).2.
Proof. rewrite check_eq_reference. intros [= Href]. by rewrite Href. Qed.

Lemma reference_from_app pre es1 es2 :
  reference_from pre (es1 ++ es2)
  = ((reference_from pre es1).1 ++ (reference_from (pre ++ es1) es2).1,
     (reference_from pre es1).2 ++ (reference_from (pre ++ es1) es2).2).
Proof.
  revert pre. induction es1 as [|e es1 IH]; intros pre.
  - simpl. rewrite app_nil_r. by destruct (reference_from pre es2).
  - simpl. rewrite IH. simpl. by rewrite <-!app_assoc.
Qed.

(** The output entry at a position is the outcome of the input entry there
    after the entries before it. *)
Lemma reference_from_position pre es1 e es2 :
  (reference_from pre (es1 ++ e :: es2)).1 !! length es1
  = Some (expected_outcome (pre ++ es1) e).1.
Proof.
  rewrite reference_from_app. simpl.
  rewrite lookup_app_r by (by rewrite reference_from_length).
  by rewrite reference_from_length, Nat.sub_diag.
Qed.

Lemma check_position pre e rest options :
  ∃ out errs,
    check (pre ++ e :: rest) options = Some (out, errs)
    ∧ out !! length pre = Some (expected_outcome pre e).1.
Proof.
  exists (reference (pre ++ e :: rest)).1, (reference (pre ++ e :: rest)).2.
  rewrite <-surjective_pairing. split; [apply check_eq_reference|].
  apply (reference_from_position []).
Qed.






(** A ledger without assertions comes back as it is. *)
Lemma reference_from_no_balance pre es :
  (∀ e, e ∈ es → is_balance e = false) → reference_from pre es = (es, []).
Proof.
  revert pre. induction es as [|e es IH]; intros pre Hnone; [done|].
  simpl. rewrite IH by (intros e' ?; by apply Hnone, list_elem_of_further).
  assert (is_balance e = false) as He by apply Hnone, list_elem_of_here.
  by destruct e.
Qed.

(** Every error comes from the outcome of one entry of the ledger. *)
Lemma reference_from_errors pre es err :
  err ∈ (reference_from pre es).2 →
  ∃ es1 e es2, es = es1 ++ e :: es2 ∧ err ∈ (expected_outcome (pre ++ es1) e).2.
Proof.
  revert pre. induction es as [|e es IH]; intros pre; simpl.
  - by intros ?%elem_of_nil.
  - intros [Hhead|Htail]%elem_of_app.
    + exists [], e, es. by rewrite app_nil_r.
    + apply IH in Htail as (es1 & e' & es2 & -> & Herr).
      exists (e :: es1), e', es2. split; [done|]. by rewrite <-app_assoc in Herr.
Qed.

(** On a ledger whose assertions carry no diff, the diffs of the output
    entries are the differences of the errors, in order. *)
Lemma reference_from_diffs pre es :
  (∀ e, e ∈ es → data_diff_amount e = None) →
  omap data_diff_amount (reference_from pre es).1
  = omap error_diff (reference_from pre es).2.
Proof.
  revert pre. induction es as [|e es IH]; intros pre Hnone; [done|].
  assert (data_diff_amount e = None) as He by apply Hnone, list_elem_of_here.
  simpl. rewrite omap_app.
  rewrite <-(IH (pre ++ [e])) by (intros e' ?; by apply Hnone, list_elem_of_further).
  destruct e as [f d ps| f d a amt df | f d accounts]; simpl in *; [done| |done].
  subst df. by case_bool_decide.
Qed.

Lemma reference_from_error_diffs pre es :
  length (omap error_diff (reference_from pre es).2)
  = length (reference_from pre es).2.
Proof.
  revert pre. induction es as [|e es IH]; intros pre; [done|].
  simpl. rewrite omap_app, !length_app, IH. f_equal.
  destruct e as [f d ps| f d a amt df | f d accounts]; simpl; [done| |done].
  by case_bool_decide.
Qed.

Lemma posting_units_other_currency s c (posting : Posting) :
  inventory.lot_currency (inventory.lot (data.position posting)) ≠ c →
  posting_units s c posting = ZERO.
Proof.
  intros Hc. unfold posting_units, units_in.
  case_bool_decide; [|done]. by rewrite decide_False.
Qed.

Lemma posted_units_only_postings_in es s c :
  posted_units (only_postings_in c <$> es) s c = posted_units es s c.
Proof.
  unfold posted_units. rewrite <-list_fmap_compose. f_equal.
  apply list_fmap_ext. intros _ e _. simpl.
  destruct e as [f d ps| |]; simpl; [|done..].
  induction ps as [|posting ps IH]; [done|].
  destruct (decide (inventory.lot_currency
                      (inventory.lot (data.position posting)) = c)) as [Hc|Hc].
  - rewrite filter_cons_True by done. by rewrite !fmap_cons, !sum_units_cons, IH.
  - rewrite filter_cons_False by done.
    rewrite fmap_cons, sum_units_cons, IH.
    rewrite posting_units_other_currency by done. unfold ZERO. ring.
Qed.

End reference_facts.

(** ** The examples of the spec *)

(** The scenario: the first assertion passes, the second gets the difference
    of +10 USD, and the one error refers to it. *)
Example scenario_run :
  (λ result : list Entry * list BalanceError, (result.1, entry <$> result.2))
    <$> check scenario ∅
  = Some ([ Transaction (loc 1) 1
              [data.mkPosting "Assets:Cash" (units_of (USD 100))];
            Balance (loc 2) 2 "Assets:Cash" (USD 100) None;
            Balance (loc 3) 3 "Assets:Cash" (USD 90) (Some (USD 10)) ],
          [ Balance (loc 3) 3 "Assets:Cash" (USD 90) None ]).
Proof. apply (bool_decide_unpack _). vm_compute. exact I. Qed.

(** Subtree aggregation: the assertion on [Assets:Bank] for 15 CUR passes,
    the assertion on [Assets:Bank:Checking] for 15 CUR fails with a
    difference of -5 CUR. *)
Example subtree_run :
  (λ result : list Entry * list BalanceError, (result.1, entry <$> result.2))
    <$> check bank_entries ∅
  = Some ([ Transaction (loc 1) 1 bank_postings;
            Balance (loc 2) 2 "Assets:Bank" (CUR 15) None;
            Balance (loc 3) 2 "Assets:Bank:Checking" (CUR 15) (Some (CUR (-5))) ],
          [ Balance (loc 3) 2 "Assets:Bank:Checking" (CUR 15) None ]).
Proof. apply (bool_decide_unpack _). vm_compute. exact I. Qed.

(** * The claims *)

Section claims.
Local Open Scope Qc_scope.

(** C1.  When an assertion is evaluated, the amount compared with the
    expected amount is the sum, over the node of the assertion's account and
    all the nodes below it, of the units each node's own inventory holds in
    the declared currency: the own units of the node plus the subtree amounts
    of its children ([subtree_units], the recursion of the spec), which is
    the sum over the nodes yielded by [iter_children].  The iteration fails
    or passes on the distance between that sum and the expected number.  The
    sum is zero when the currency occurs nowhere in the subtree, and erasing
    every position held in another currency from the subtree changes neither
    the compared amount nor the difference. *)
Theorem subtree_aggregation st fileloc date account expected_amount old_diff
    real_account :
  realization.get (real_root st) account = Some real_account →
  let c := amount.currency expected_amount in
  let e := Balance fileloc date account expected_amount old_diff in
  let accumulated := subtree_units c real_account in
  accumulated
  = sum_units ((λ n, inventory.get_units (realization.balance n) c)
                 <$> realization.iter_children real_account)
  ∧ balance_amount real_account expected_amount = amount.mk accumulated c
  ∧ check_entry st e
    = Some (if bool_decide
                 (CHECK_PRECISION < Qcabs (accumulated - amount.number expected_amount))
            then mkLoopState
                   (real_root st)
                   (new_entries st ++
                      [Balance fileloc date account expected_amount
                         (Some (amount.mk
                                  (accumulated - amount.number expected_amount) c))])
                   (check_errors st ++ [balance_error real_account e])
            else mkLoopState (real_root st) (new_entries st ++ [e])
                             (check_errors st))
  ∧ ((∀ n l, n ∈ realization.iter_children real_account →
             is_Some (realization.balance n !! l) →
             inventory.lot_currency l ≠ c) →
     accumulated = ZERO)
  ∧ balance_amount (erase_other_currencies c real_account) expected_amount
    = balance_amount real_account expected_amount
  ∧ diff_amount (erase_other_currencies c real_account) expected_amount
    = diff_amount real_account expected_amount.
Proof.
  intros Hget c e accumulated.
  assert (balance_amount real_account expected_amount = amount.mk accumulated c)
    as Hbal by apply balance_amount_units.
  assert (balance_amount (erase_other_currencies c real_account) expected_amount
          = balance_amount real_account expected_amount) as Herase.
  { rewrite !balance_amount_units. subst c. by rewrite subtree_units_erase. }
  split_and!.
  - subst accumulated. by rewrite sum_units_iter_children.
  - done.
  - subst e. rewrite (check_entry_Balance _ _ _ _ _ _ _ Hget).
    unfold diff_amount. rewrite Hbal. simpl. reflexivity.
  - intros Habsent. subst accumulated.
    rewrite <-sum_units_iter_children. apply sum_units_zero.
    intros n Hn. apply get_units_absent. intros l. by apply Habsent.
  - done.
  - unfold diff_amount. by rewrite Herase.
Qed.

(** The subtree example: at the assertion on [Assets:Bank] the compared
    amount is 15 CUR, the shares notwithstanding. *)
Lemma subtree_aggregation_witness :
  realization.get (real_root bank_state) "Assets:Bank" = Some bank_node
  ∧ balance_amount bank_node (CUR 15)
    = amount.mk (subtree_units "CUR" bank_node) "CUR"
  ∧ subtree_units "CUR" bank_node = D 15.
Proof.
  assert (realization.get (real_root bank_state) "Assets:Bank" = Some bank_node)
    as Hget by (vm_compute; reflexivity).
  split; [exact Hget|]. split.
  - exact (proj1 (proj2 (subtree_aggregation bank_state (loc 2) 2 "Assets:Bank"
                           (CUR 15) None bank_node Hget))).
  - apply (bool_decide_unpack _). vm_compute. exact I.
Defined.



(** C3.  The entry list returned by the pass has the length of the input; the
    entry at each position is the input entry at that position or a copy of
    it with the diff field set; and the entries the errors refer to are, in
    the order of the error list, a subsequence of the input: entries, outputs
    and errors line up as [lined_up] describes. *)
Theorem order_and_length entries options out errs :
  check entries options = Some (out, errs) →
  length out = length entries
  ∧ Forall2 (λ e o, o = e ∨ failed_copy e o) entries out
  ∧ (∀ i e, entries !! i = Some e →
            ∃ o, out !! i = Some o ∧ (o = e ∨ failed_copy e o))
  ∧ entry <$> errs `sublist_of` entries
  ∧ lined_up entries out errs.
Proof.
  intros Hlined%check_lined_up.
  pose proof (lined_up_Forall2 _ _ _ Hlined) as Hall.
  split_and!;
    [by eapply lined_up_length|done| |by eapply lined_up_sublist|done].
  intros i e Hi.
  destruct (Forall2_lookup_l _ _ _ _ _ Hall Hi) as (o & Ho & Heo). by exists o.
Qed.

(** The scenario of the spec: three entries in, three entries out, one error
    that refers to the last entry. *)
Lemma order_and_length_witness :
  check scenario ∅
  = Some (take 2 scenario ++
            [Balance (loc 3) 3 "Assets:Cash" (USD 90) (Some (USD 10))],
          [balance_error cash_node
             (Balance (loc 3) 3 "Assets:Cash" (USD 90) None)]%list)
  ∧ length (take 2 scenario ++
              [Balance (loc 3) 3 "Assets:Cash" (USD 90) (Some (USD 10))])
    = length scenario.
Proof.
  assert (check scenario ∅
          = Some (take 2 scenario ++
                    [Balance (loc 3) 3 "Assets:Cash" (USD 90) (Some (USD 10))],
                  [balance_error cash_node
                     (Balance (loc 3) 3 "Assets:Cash" (USD 90) None)]%list))
    as Hrun by (apply (bool_decide_unpack _); vm_compute; exact I).
  split; [exact Hrun|].
  exact (proj1 (order_and_length scenario ∅ _ _ Hrun)).
Defined.

(** C4.  Take the entry [e] at any position of the input, and the state the
    loop has reached when it comes to [e].  If [e] is an assertion, the node
    of its account is found; when the assertion fails, the output entry at
    the position of [e] is the assertion with the same location, date,
    account and expected amount and with the diff field set to the
    accumulated amount minus the expected amount; when it passes, the output
    entry is [e] itself, its diff field as it was (absent if it was absent).
    For a transaction, and for any other entry, the output entry is [e]. *)
Theorem failure_annotation entries options out errs pre e rest :
  check entries options = Some (out, errs) →
  entries = pre ++ e :: rest →
  ∃ st,
    replay pre (initial_state entries) = Some st
    ∧ match e with
      | Balance fileloc date account expected_amount old_diff =>
          ∃ real_account,
            realization.get (real_root st) account = Some real_account
            ∧ let accumulated := balance_amount real_account expected_amount in
              let diff := amount.amount_sub accumulated expected_amount in
              amount.number diff
              = amount.number accumulated - amount.number expected_amount
              ∧ (CHECK_PRECISION < Qcabs (amount.number diff) →
                 out !! length pre
                 = Some (Balance fileloc date account expected_amount (Some diff)))
              ∧ (¬ CHECK_PRECISION < Qcabs (amount.number diff) →
                 out !! length pre = Some e
                 ∧ (old_diff = None →
                    data_diff_amount <$> out !! length pre = Some None))
      | _ => out !! length pre = Some e
      end.
Proof.
  unfold check. fold (initial_state entries).
  destruct (replay entries (initial_state entries)) as [st_end|] eqn:Hrun; [|done].
  intros [= <- <-] ->.
  apply replay_cut in Hrun as (st & st' & Hpre & Hstep & _ & Hout).
  exists st. split; [done|].
  destruct e as [f d ps| f d a amt df |].
  - apply Hout; [|done]. by injection Hstep as <-.
  - destruct (realization.get (real_root st) a) as [node|] eqn:Hget.
    + rewrite (check_entry_Balance _ _ _ _ _ _ _ Hget) in Hstep.
      exists node. split; [done|]. simpl. split; [done|].
      fold (balance_amount node amt) in *.
      change (amount.number (diff_amount node amt))
        with (amount.number (balance_amount node amt) - amount.number amt) in Hstep.
      split.
      * intros Hfail. rewrite bool_decide_eq_true_2 in Hstep by done.
        apply Hout; [|done]. by injection Hstep as <-.
      * intros Hpass. rewrite bool_decide_eq_false_2 in Hstep by done.
        assert (new_entries st_end !! length pre = Some (Balance f d a amt df))
          as -> by (apply Hout; [|done]; by injection Hstep as <-).
        split; [done|]. by intros ->.
    + simpl in Hstep. by rewrite Hget in Hstep.
  - apply Hout; [|done]. by injection Hstep as <-.
Qed.

(** The scenario of the spec: the assertion for 90 USD fails and becomes a
    copy with the difference of +10 USD. *)
Lemma failure_annotation_witness :
  check scenario ∅
  = Some (take 2 scenario ++
            [Balance (loc 3) 3 "Assets:Cash" (USD 90) (Some (USD 10))],
          [balance_error cash_node
             (Balance (loc 3) 3 "Assets:Cash" (USD 90) None)]%list)
  ∧ scenario
    = take 2 scenario ++ Balance (loc 3) 3 "Assets:Cash" (USD 90) None :: []
  ∧ ∃ st, replay (take 2 scenario) (initial_state scenario) = Some st.
Proof.
  assert (check scenario ∅
          = Some (take 2 scenario ++
                    [Balance (loc 3) 3 "Assets:Cash" (USD 90) (Some (USD 10))],
                  [balance_error cash_node
                     (Balance (loc 3) 3 "Assets:Cash" (USD 90) None)]%list))
    as Hrun by (apply (bool_decide_unpack _); vm_compute; exact I).
  split; [exact Hrun|]. split; [reflexivity|].
  destruct (failure_annotation scenario ∅ _ _ (take 2 scenario)
              (Balance (loc 3) 3 "Assets:Cash" (USD 90) None) [] Hrun eq_refl)
    as (st & Hst & _).
  by exists st.
Defined.




(** C6 at a ledger with a posting to [Assets:BankOfAmerica] and an assertion
    on [Assets:Bank].  The posted account is not tracked: it is not asserted,
    and neither an ancestor nor a descendant of the asserted account.  Yet
    Selection creates a node for it, because its name begins with
    [Assets:Bank], and the replay does not skip the posting: it adds it to
    the inventory of that node, which goes from 0 to 5 USD.  The entries and
    errors returned are not affected: they are those of the ledger without
    the posting. *)
Theorem lookalike_posting_is_applied :
  ¬ tracked lookalike_entries "Assets:BankOfAmerica"
  ∧ node_exists (selection lookalike_entries) "Assets:BankOfAmerica"
  ∧ own_units (selection lookalike_entries) "Assets:BankOfAmerica" "USD"
    = Some ZERO
  ∧ (replay lookalike_entries (initial_state lookalike_entries)
       ≫= λ st, own_units (real_root st) "Assets:BankOfAmerica" "USD")
    = Some (D 5)
  ∧ check lookalike_entries ∅ = Some (lookalike_entries, []%list)
  ∧ check (without_postings_to "Assets:BankOfAmerica" <$> lookalike_entries) ∅
    = Some (without_postings_to "Assets:BankOfAmerica" <$> lookalike_entries,
            []%list).
Proof. apply (bool_decide_unpack _). vm_compute. exact I. Qed.

(** C7.  The direction named in the message of an error follows from
    whether the difference is nonzero, not from its sign: it is "too much"
    for a positive and for a negative difference, and "too little" exactly
    for a zero difference; it is the last argument of the message.  A
    difference that exceeds the tolerance is nonzero, hence every error of
    every run names the direction "too much". *)
Theorem direction_label :
  (∀ diff, 0 < amount.number diff → direction diff = "too much")
  ∧ (∀ diff, amount.number diff < 0 → direction diff = "too much")
  ∧ (∀ diff, direction diff = "too little" ↔ amount.number diff = 0)
  ∧ (∀ account accumulated expected_amount diff,
       list.last (args (balance_message account accumulated expected_amount diff))
       = Some (ArgStr (direction diff)))
  ∧ (∀ entries options out errs err,
       check entries options = Some (out, errs) → err ∈ errs →
       message_direction err = Some (ArgStr "too much")).
Proof.
  assert (∀ diff, amount.number diff ≠ 0 → direction diff = "too much") as Hnz.
  { intros diff Hdiff. unfold direction, amount.truthy.
    by rewrite bool_decide_eq_true_2. }
  split_and!.
  - intros diff Hpos. apply Hnz. intros Hz. rewrite Hz in Hpos.
    by apply Qclt_not_le in Hpos.
  - intros diff Hneg. apply Hnz. intros Hz. rewrite Hz in Hneg.
    by apply Qclt_not_le in Hneg.
  - intros diff. unfold direction, amount.truthy. case_bool_decide as Hd.
    + split; [done|]. intros Hz. by destruct Hd.
    + split; [|done]. intros _. exact Hd.
  - done.
  - intros entries options out errs err Hcheck Herr. unfold check in Hcheck.
    destruct (replay entries _) as [st|] eqn:Hrun; [|done].
    injection Hcheck as <- <-.
    eapply (replay_errors_Forall
              (λ err, message_direction err = Some (ArgStr "too much")))
      in Hrun; [| |by constructor].
    + rewrite list.Forall_forall in Hrun. by apply Hrun.
    + intros t f d a amt df Hfail. unfold message_direction. simpl.
      f_equal. f_equal. apply Hnz. intros Hz. rewrite Hz in Hfail.
      apply Qclt_not_le in Hfail. apply Hfail. by vm_compute.
Qed.

(** The scenario of the spec: its one error, for a difference of +10 USD,
    says "too much"; so does the error for the difference of -5 CUR in the
    subtree example. *)
Lemma direction_label_witness :
  direction (USD 10) = "too much"
  ∧ direction (CUR (-5)) = "too much"
  ∧ message_direction
      (balance_error cash_node (Balance (loc 3) 3 "Assets:Cash" (USD 90) None))
    = Some (ArgStr "too much").
Proof.
  destruct direction_label as (Hpos & Hneg & _ & _ & Hrun).
  split_and!.
  - apply Hpos. reflexivity.
  - apply Hneg. reflexivity.
  - apply (Hrun scenario ∅
             (take 2 scenario ++
                [Balance (loc 3) 3 "Assets:Cash" (USD 90) (Some (USD 10))])
             [balance_error cash_node
                (Balance (loc 3) 3 "Assets:Cash" (USD 90) None)]%list).
    + apply (bool_decide_unpack _). vm_compute. exact I.
    + apply list_elem_of_here.
Defined.

(** C8, as the code has it.  The options map given to [check] is not
    consulted: the result is the same for every options map.  The threshold
    is the constant [CHECK_PRECISION] of the module, 0.015: an assertion
    whose node is found adds an error exactly when the absolute difference
    is greater than 15/1000. *)
Theorem tolerance_is_constant entries options1 options2 :
  check entries options1 = check entries options2
  ∧ (CHECK_PRECISION == 15 # 1000)%Q
  ∧ (∀ st fileloc date account expected_amount old_diff real_account,
       realization.get (real_root st) account = Some real_account →
       ∃ st', check_entry st (Balance fileloc date account expected_amount old_diff)
              = Some st'
              ∧ (length (check_errors st') = S (length (check_errors st)) ↔
                 D (15 # 1000)
                 < Qcabs (amount.number (diff_amount real_account expected_amount)))).
Proof.
  split_and!; [done|reflexivity|].
  intros st f d a amt df node Hget.
  rewrite (check_entry_Balance _ _ _ _ _ _ _ Hget).
  eexists. split; [done|]. fold CHECK_PRECISION.
  case_bool_decide as Hfail; simpl.
  - rewrite length_app. simpl. split; [done|lia].
  - split; [lia|done].
Qed.

(** The scenario of the spec gives the same result under an options map
    that names another tolerance. *)
Lemma tolerance_is_constant_witness :
  check scenario {["tolerance" := "100"]} = check scenario ∅
  ∧ realization.get (real_root cash_state) "Assets:Cash" = Some cash_node
  ∧ ∃ st', check_entry cash_state
             (Balance (loc 3) 3 "Assets:Cash" (USD 90) None) = Some st'.
Proof.
  destruct (tolerance_is_constant scenario {["tolerance" := "100"]} ∅)
    as (Hsame & _ & Hstep).
  assert (realization.get (real_root cash_state) "Assets:Cash"
          = Some cash_node) as Hget by (vm_compute; reflexivity).
  split_and!; [exact Hsame|exact Hget|].
  destruct (Hstep cash_state (loc 3) 3%Z "Assets:Cash" (USD 90) None
              cash_node Hget) as (st' & Hst' & _).
  by exists st'.
Defined.

(** C8, as the claim has it, fails: no options map and no list of entries
    make the result differ from the result under the empty options map. *)
Lemma tolerance_option_counterexample :
  ¬ ∃ (options : OptionsMap) entries, check entries options ≠ check entries ∅.
Proof. by intros (options & entries & Hdiff). Qed.

(** C9.  When a run returns no error, the entries it returns are the entries
    it was given, and a second run on them returns the same entries and again
    no error. *)
Theorem idempotence entries options out :
  check entries options = Some (out, []%list) →
  out = entries ∧ check out options = Some (out, []%list).
Proof.
  intros Hcheck. pose proof (check_lined_up _ _ _ _ Hcheck) as Hlined.
  apply lined_up_no_errors in Hlined as ->. done.
Qed.

(** The first two entries of the scenario pass, and come back as they
    are. *)
Lemma idempotence_witness :
  check passing_entries ∅ = Some (passing_entries, []%list)
  ∧ check passing_entries ∅ = Some (passing_entries, []%list).
Proof.
  assert (check passing_entries ∅ = Some (passing_entries, []%list)) as Hrun
    by (apply (bool_decide_unpack _); vm_compute; exact I).
  split; [exact Hrun|].
  exact (proj2 (idempotence passing_entries ∅ passing_entries Hrun)).
Defined.

(** C10.  After Selection a node exists for every account named in a
    [Balance] entry, replaying entries keeps every node, and therefore the
    lookup made for an assertion always finds its node: [check] returns a
    result for every list of entries, it never stops on the internal
    assertion. *)
Theorem assertion_never_fires entries options :
  (∀ fileloc date account expected_amount old_diff,
     Balance fileloc date account expected_amount old_diff ∈ entries →
     node_exists (selection entries) account)
  ∧ (∀ es st st' A, replay es st = Some st' →
       node_exists (real_root st) A → node_exists (real_root st') A)
  ∧ ∃ out errs, check entries options = Some (out, errs).
Proof.
  assert (∀ f d a amt df, Balance f d a amt df ∈ entries →
                          node_exists (selection entries) a) as Hsel.
  { intros f d a amt df He. apply node_exists_selection.
    assert (asserted entries a) as Ha by (apply asserted_spec; eauto).
    exists a. split_and!.
    - by apply asserted_in_ledger.
    - apply needs_balance_spec. exists a. split; [done|apply startswith_refl].
    - by left. }
  split_and!; [done|by intros es st st' A Hrun ?; apply (replay_node_exists _ _ _ _ Hrun)|].
  assert (∀ es st,
            (∀ f d a amt df, Balance f d a amt df ∈ es →
                             node_exists (real_root st) a) →
            is_Some (replay es st)) as Hloop.
  { induction es as [|e es IH]; intros st Hnodes; simpl; [by eexists|].
    destruct (check_entry st e) as [st1|] eqn:Hstep.
    - apply IH. intros f d a amt df He.
      apply (check_entry_node_exists _ _ _ _ Hstep).
      eapply Hnodes. by apply list_elem_of_further.
    - apply check_entry_raises in Hstep as (f & d & a & amt & df & -> & Hnone).
      destruct Hnone. eapply Hnodes. apply list_elem_of_here. }
  unfold check.
  destruct (Hloop entries (mkLoopState (selection entries) [] []) Hsel)
    as [st ->].
  by do 2 eexists.
Qed.

(** The subtree example names two accounts in assertions: both have a node
    after Selection, and the run returns. *)
Lemma assertion_never_fires_witness :
  node_exists (selection bank_entries) "Assets:Bank"
  ∧ node_exists (selection bank_entries) "Assets:Bank:Checking"
  ∧ ∃ out errs, check bank_entries ∅ = Some (out, errs).
Proof.
  destruct (assertion_never_fires bank_entries ∅) as (Hsel & _ & Hrun).
  split_and!; [| |exact Hrun].
  - apply (Hsel (loc 2) 2%Z "Assets:Bank" (CUR 15) None).
    apply list_elem_of_further, list_elem_of_here.
  - apply (Hsel (loc 3) 2%Z "Assets:Bank:Checking" (CUR 15) None).
    apply list_elem_of_further, list_elem_of_further, list_elem_of_here.
Defined.

End claims.

(** * Further properties of [check] *)

Section further_properties.
Local Open Scope Qc_scope.





(** X3.  Entries appended to a ledger change nothing in what the pass
    returns for the ledger before them, although Selection reads the
    assertions and accounts of the whole ledger: the result for the longer
    ledger begins with the entries, and with the errors, returned for the
    shorter one. *)
Theorem appended_entries_extend pre rest options :
  ∃ out1 errs1 out2 errs2,
    check pre options = Some (out1, errs1)
    ∧ check (pre ++ rest) options = Some (out1 ++ out2, errs1 ++ errs2)
    ∧ length out1 = length pre
    ∧ length out2 = length rest.
Proof.
  exists (reference pre).1, (reference pre).2,
         (reference_from pre rest).1, (reference_from pre rest).2.
  rewrite !check_eq_reference. unfold reference.
  rewrite reference_from_app, !reference_from_length, <-surjective_pairing.
  done.
Qed.







(** X7.  A ledger without any [Balance] entry, the empty ledger included,
    comes back as it is, with no error. *)
Theorem ledger_without_assertions entries options :
  (∀ e, e ∈ entries → is_balance e = false) →
  check entries options = Some (entries, []%list).
Proof.
  intros Hnone. rewrite check_eq_reference. f_equal.
  by apply reference_from_no_balance.
Qed.

(** The transaction of the scenario alone. *)
Lemma ledger_without_assertions_witness :
  check (take 1 scenario) ∅ = Some (take 1 scenario, []%list).
Proof.
  apply (ledger_without_assertions (take 1 scenario) ∅).
  intros e He. apply list_elem_of_singleton in He. by subst e.
Defined.

(** X8.  Every error of every run refers to a [Balance] entry of the ledger
    and carries the location of that entry.  The arguments of its message
    are, in this order, the account of the entry, the total posted before
    the entry to the account and below it in the expected currency, the
    expected amount, their difference and the direction; the format string
    reads "expected" before the first of the two amounts and "accumulated"
    before the second.  The difference exceeds the tolerance. *)
Theorem error_record_contents entries options out errs err :
  check entries options = Some (out, errs) →
  err ∈ errs →
  ∃ pre fileloc' date account expected_amount old_diff rest,
    let c := amount.currency expected_amount in
    let accumulated := amount.mk (posted_units pre account c) c in
    let diff := amount.amount_sub accumulated expected_amount in
    entries = pre ++ Balance fileloc' date account expected_amount old_diff :: rest
    ∧ entry err = Balance fileloc' date account expected_amount old_diff
    ∧ fileloc err = fileloc'
    ∧ template (message err)
      = "Balance failed for '{}': expected {} != accumulated {} ({} {})"
    ∧ args (message err)
      = [ArgStr account; ArgAmount accumulated; ArgAmount expected_amount;
         ArgAmount diff; ArgStr (direction diff)]
    ∧ CHECK_PRECISION < Qcabs (amount.number diff).
Proof.
  intros [-> ->]%check_reference_inv Herr.
  apply (reference_from_errors []) in Herr as (pre & e & rest & -> & Herr).
  simpl in Herr.
  destruct e as [f d ps| f d a amt df | f d accounts]; simpl in Herr;
    [by apply elem_of_nil in Herr| |by apply elem_of_nil in Herr].
  case_bool_decide as Hfail; [|by apply elem_of_nil in Herr].
  apply list_elem_of_singleton in Herr as ->.
  by exists pre, f, d, a, amt, df, rest.
Qed.

(** The scenario of the spec: its error is about the assertion for 90 USD. *)
Lemma error_record_contents_witness :
  ∃ pre fileloc' date account expected_amount old_diff rest,
    scenario = pre ++ Balance fileloc' date account expected_amount old_diff :: rest
    ∧ entry (balance_error cash_node (Balance (loc 3) 3 "Assets:Cash" (USD 90) None))
      = Balance fileloc' date account expected_amount old_diff.
Proof.
  destruct (error_record_contents scenario ∅
              (take 2 scenario ++
                 [Balance (loc 3) 3 "Assets:Cash" (USD 90) (Some (USD 10))])
              [balance_error cash_node
                 (Balance (loc 3) 3 "Assets:Cash" (USD 90) None)]%list
              (balance_error cash_node
                 (Balance (loc 3) 3 "Assets:Cash" (USD 90) None)))
    as (pre & f & d & a & amt & df & rest & Hsplit & Hentry & _).
  - apply (bool_decide_unpack _). vm_compute. exact I.
  - apply list_elem_of_here.
  - by exists pre, f, d, a, amt, df, rest.
Defined.

(** X9.  On a ledger whose assertions carry no diff, the diffs found on the
    entries returned are, in order, exactly the differences named in the
    messages of the errors returned, one for every error: failed entries and
    errors correspond one to one. *)
Theorem written_diffs_match_errors entries options out errs :
  (∀ e, e ∈ entries → data_diff_amount e = None) →
  check entries options = Some (out, errs) →
  omap data_diff_amount out = omap error_diff errs
  ∧ length (omap error_diff errs) = length errs.
Proof.
  intros Hnone [-> ->]%check_reference_inv.
  split; [by apply reference_from_diffs|apply reference_from_error_diffs].
Qed.

(** The scenario of the spec: one diff, +10 USD, on the entries and in the
    errors. *)
Lemma written_diffs_match_errors_witness :
  omap data_diff_amount
       (take 2 scenario ++
          [Balance (loc 3) 3 "Assets:Cash" (USD 90) (Some (USD 10))])
  = omap error_diff
         [balance_error cash_node
            (Balance (loc 3) 3 "Assets:Cash" (USD 90) None)]%list.
Proof.
  apply (written_diffs_match_errors scenario ∅).
  - intros e He. repeat (apply elem_of_cons in He as [->|He]; [done|]).
    by apply elem_of_nil in He.
  - apply (bool_decide_unpack _). vm_compute. exact I.
Defined.

(** X10.  Postings to an account that is neither named in an assertion nor
    below an account named in one change nothing in what the pass returns,
    whether or not Selection made a node for the account: on the ledger
    without those postings the pass returns the same errors and, those
    postings apart, the same entries. *)
Theorem postings_outside_assertions_ignored X entries options :
  (∀ s, asserted entries s → ¬ leads_to s X) →
  ∃ out errs,
    check entries options = Some (out, errs)
    ∧ check (without_postings_to X <$> entries) options
      = Some (without_postings_to X <$> out, errs).
Proof.
  intros HX. exists (reference entries).1, (reference entries).2.
  rewrite <-surjective_pairing. split; [apply check_eq_reference|].
  rewrite (postings_elsewhere_ignored X entries options HX).
  by rewrite check_eq_reference.
Qed.

(** The posting to [Assets:BankOfAmerica] under an assertion on
    [Assets:Bank]. *)
Lemma postings_outside_assertions_ignored_witness :
  ∃ out errs,
    check lookalike_entries ∅ = Some (out, errs)
    ∧ check (without_postings_to "Assets:BankOfAmerica" <$> lookalike_entries) ∅
      = Some (without_postings_to "Assets:BankOfAmerica" <$> out, errs).
Proof.
  apply (postings_outside_assertions_ignored "Assets:BankOfAmerica"
           lookalike_entries ∅).
  intros s Hs. apply (bool_decide_unpack _).
  apply elem_of_list_to_set in Hs. simpl in Hs.
  apply list_elem_of_singleton in Hs. subst s. vm_compute. exact I.
Defined.

(** X11.  Postings in other currencies never matter to an assertion: with
    every posting in a currency other than the expected one erased from the
    transactions before an assertion, and whatever comes after it, the
    output entry at its position is the same. *)
Theorem other_currencies_irrelevant pre fileloc date account expected_amount
    old_diff rest rest' options :
  let e := Balance fileloc date account expected_amount old_diff in
  let c := amount.currency expected_amount in
  ∃ out errs out' errs' o,
    check (pre ++ e :: rest) options = Some (out, errs)
    ∧ check ((only_postings_in c <$> pre) ++ e :: rest') options
      = Some (out', errs')
    ∧ out !! length pre = Some o
    ∧ out' !! length pre = Some o.
Proof.
  intros e c.
  destruct (check_position pre e rest options) as (out & errs & Hrun & Hout).
  destruct (check_position (only_postings_in c <$> pre) e rest' options)
    as (out' & errs' & Hrun' & Hout').
  rewrite length_fmap in Hout'.
  exists out, errs, out', errs', (expected_outcome pre e).1.
  split_and!; [done..|].
  rewrite Hout'. do 2 f_equal. unfold e, expected_outcome. fold c.
  by rewrite posted_units_only_postings_in.
Qed.

End further_properties.
